(** * YOLOv8 segmentation post-processing ([src/utils/detect.js])

    A shallow embedding of [detectImage], [preprocessing], [divStride] and
    [overflowBoxes], followed by the properties of the specification that
    are settled against it.

    Numbers.  A JavaScript number is modelled by [number]: a rational or
    one of the three special values NaN, -Infinity and +Infinity.  Reading
    an array past its end gives [undefined], which every use in [detect.js]
    coerces to NaN, so such a read is modelled as [NaN].

    Arithmetic.  [add], [sub], [mul] and [div] are exact.  JavaScript
    rounds the result of every operation to binary64, and a [Float32Array]
    rounds what it stores to binary32; [fl64] and [fround] are these
    roundings (to the nearest number of 53, of 24 significant bits, ties to
    even; overflow, subnormal numbers and the sign of zero are outside the
    model).  The rounding is written out where the result is not
    representable in general: the quotients [maxSize / cols] and
    [maxSize / rows], the products with a ratio, the entries of the tensors
    built from a [Float32Array].  The remaining operations of [detect.js]
    are sums, differences, halves, and quotients and products of sizes;
    they are taken exact, as binary64 computes them on integers below 2^53
    and on binary fractions whose bits span fewer than 53 places, which
    covers sizes, floored coordinates and the binary32 entries of a box. *)

From Stdlib Require Import ZArith QArith Qround Qpower Qminmax Lqa Lia Bool.
From stdpp Require Import base list strings.

(** ** JavaScript numbers *)

Module Number.

Inductive number : Type :=
  | NaN
  | NegInfinity
  | PosInfinity
  | Fin (q : Q).

Definition of_Z (z : Z) : number := Fin (inject_Z z).
Definition of_nat (n : nat) : number := of_Z (Z.of_nat n).

Definition is_finite (a : number) : bool :=
  match a with Fin _ => true | _ => false end.

Definition neg (a : number) : number :=
  match a with
  | NaN => NaN
  | NegInfinity => PosInfinity
  | PosInfinity => NegInfinity
  | Fin q => Fin (- q)
  end.

(** [a + b] *)
Definition add (a b : number) : number :=
  match a, b with
  | NaN, _ | _, NaN => NaN
  | Fin p, Fin q => Fin (p + q)
  | PosInfinity, NegInfinity | NegInfinity, PosInfinity => NaN
  | PosInfinity, _ | _, PosInfinity => PosInfinity
  | NegInfinity, _ | _, NegInfinity => NegInfinity
  end.

(** [a - b] *)
Definition sub (a b : number) : number := add a (neg b).

(** An infinity of sign [pos] multiplied by the finite [q]. *)
Definition scale_inf (pos : bool) (q : Q) : number :=
  if Qeq_bool q 0 then NaN
  else if Bool.eqb pos (Qle_bool 0 q) then PosInfinity else NegInfinity.

(** [a * b] *)
Definition mul (a b : number) : number :=
  match a, b with
  | NaN, _ | _, NaN => NaN
  | Fin p, Fin q => Fin (p * q)
  | PosInfinity, Fin q | Fin q, PosInfinity => scale_inf true q
  | NegInfinity, Fin q | Fin q, NegInfinity => scale_inf false q
  | PosInfinity, PosInfinity | NegInfinity, NegInfinity => PosInfinity
  | PosInfinity, NegInfinity | NegInfinity, PosInfinity => NegInfinity
  end.

(** [a / b]; a zero divisor counts as +0. *)
Definition div (a b : number) : number :=
  match a, b with
  | NaN, _ | _, NaN => NaN
  | Fin p, Fin q =>
      if Qeq_bool q 0 then
        if Qeq_bool p 0 then NaN
        else if Qle_bool 0 p then PosInfinity else NegInfinity
      else Fin (p / q)
  | Fin _, _ => Fin 0
  | PosInfinity, Fin q => if Qle_bool 0 q then PosInfinity else NegInfinity
  | NegInfinity, Fin q => if Qle_bool 0 q then NegInfinity else PosInfinity
  | _, _ => NaN
  end.

(** Rounding toward zero. *)
Definition Qtrunc (x : Q) : Z := let (n, d) := x in Z.quot n (Z.pos d).

(** [a % b]: the remainder has the sign of the dividend. *)
Definition rem (a b : number) : number :=
  match a, b with
  | Fin p, Fin q =>
      if Qeq_bool q 0 then NaN else Fin (p - q * inject_Z (Qtrunc (p / q)))
  | Fin p, (PosInfinity | NegInfinity) => Fin p
  | _, _ => NaN
  end.

(** [a <= b] *)
Definition le (a b : number) : bool :=
  match a, b with
  | NaN, _ | _, NaN => false
  | Fin p, Fin q => Qle_bool p q
  | NegInfinity, _ | _, PosInfinity => true
  | _, _ => false
  end.

(** [a < b] *)
Definition lt (a b : number) : bool :=
  match a, b with
  | NaN, _ | _, NaN => false
  | Fin p, Fin q => negb (Qle_bool q p)
  | NegInfinity, NegInfinity | PosInfinity, PosInfinity => false
  | NegInfinity, _ | _, PosInfinity => true
  | _, _ => false
  end.

(** [a >= b] *)
Definition ge (a b : number) : bool := le b a.

(** [a === b] *)
Definition strict_eq (a b : number) : bool :=
  match a, b with
  | Fin p, Fin q => Qeq_bool p q
  | NegInfinity, NegInfinity | PosInfinity, PosInfinity => true
  | _, _ => false
  end.

(** [a !== b] *)
Definition strict_ne (a b : number) : bool := negb (strict_eq a b).

(** [Math.floor(a)] *)
Definition Math_floor (a : number) : number :=
  match a with
  | Fin q => of_Z (Qfloor q)
  | _ => a
  end.

(** [Math.max(a, b)] *)
Definition Math_max2 (a b : number) : number :=
  match a, b with
  | NaN, _ | _, NaN => NaN
  | _, _ => if lt a b then b else a
  end.

(** [Math.max(...l)]; the maximum of no argument is -Infinity. *)
Definition Math_max (l : list number) : number :=
  fold_left Math_max2 l NegInfinity.

(** [l[i]], with [undefined] read as NaN. *)
Definition elem (l : list number) (i : nat) : number := default NaN (l !! i).

(** [l.indexOf(v)]: the first index holding a value [=== v], or -1. *)
Fixpoint indexOf_from (l : list number) (v : number) (i : Z) : Z :=
  match l with
  | [] => (-1)%Z
  | x :: l' => if strict_eq x v then i else indexOf_from l' v (i + 1)%Z
  end.

Definition indexOf (l : list number) (v : number) : Z := indexOf_from l v 0%Z.

(** [l.slice(i, j)] for indices [0 <= i], [0 <= j]. *)
Definition slice {A} (l : list A) (i j : nat) : list A := take (j - i) (drop i l).

(** [l.slice(i)] *)
Definition slice_from {A} (l : list A) (i : nat) : list A := drop i l.

End Number.

Import Number.

(** ** Geometry utilities *)

(** A four-element array [[x, y, w, h]]. *)
Record Box : Type := mkBox { b0 : number; b1 : number; b2 : number; b3 : number }.

Definition set_b0 (v : number) (b : Box) : Box := mkBox v (b1 b) (b2 b) (b3 b).
Definition set_b1 (v : number) (b : Box) : Box := mkBox (b0 b) v (b2 b) (b3 b).
Definition set_b2 (v : number) (b : Box) : Box := mkBox (b0 b) (b1 b) v (b3 b).
Definition set_b3 (v : number) (b : Box) : Box := mkBox (b0 b) (b1 b) (b2 b) v.

Definition box_list (b : Box) : list number := [b0 b; b1 b; b2 b; b3 b].

(** [overflowBoxes(box, maxSize)]: the four assignments, in order. *)
Definition overflowBoxes (box : Box) (maxSize : number) : Box :=
  let box := set_b0 (if ge (b0 box) (of_Z 0) then b0 box else of_Z 0) box in
  let box := set_b1 (if ge (b1 box) (of_Z 0) then b1 box else of_Z 0) box in
  let box := set_b2 (if le (add (b0 box) (b2 box)) maxSize
                     then b2 box else sub maxSize (b0 box)) box in
  let box := set_b3 (if le (add (b1 box) (b3 box)) maxSize
                     then b3 box else sub maxSize (b1 box)) box in
  box.

(** One dimension of [divStride]: the statement run on [width], then on
    [height]. *)
Definition roundStride (stride d : number) : number :=
  if strict_ne (rem d stride) (of_Z 0) then
    if ge (rem d stride) (div stride (of_Z 2))
    then mul (add (Math_floor (div d stride)) (of_Z 1)) stride
    else mul (Math_floor (div d stride)) stride
  else d.

(** [divStride(stride, width, height)] *)
Definition divStride (stride width height : number) : number * number :=
  let width := roundStride stride width in
  let height := roundStride stride height in
  (width, height).

(** ** Rounding to binary64 and binary32 *)

(** [2^k], for every integer [k]. *)
Definition pow2 (k : Z) : Q := Qpower 2 k.

(** The binary exponent of a positive rational: the [k] with
    [2^k <= a < 2^(k+1)]. *)
Definition ilog2 (a : Q) : Z :=
  let k0 := (Z.log2 (Qnum a) - Z.log2 (Z.pos (Qden a)))%Z in
  if Qle_bool (pow2 k0) a then k0 else (k0 - 1)%Z.

(** The nearest integer, a tie going to the even one. *)
Definition round_half_even (x : Q) : Z :=
  let f := Qfloor x in
  let r := (x - inject_Z f)%Q in
  if Qle_bool r (1 # 2) then
    if Qle_bool (1 # 2) r then (if Z.even f then f else f + 1)%Z else f
  else (f + 1)%Z.

(** A positive rational rounded to [prec] significant bits. *)
Definition round_pos (prec : Z) (a : Q) : Q :=
  let e := (ilog2 a - (prec - 1))%Z in
  (inject_Z (round_half_even (a / pow2 e)) * pow2 e)%Q.

Definition round_to (prec : Z) (q : Q) : Q :=
  if Qeq_bool q 0 then 0%Q
  else if Qle_bool 0 q then round_pos prec q else (- round_pos prec (- q))%Q.

(** The rounding as a function of the value of [q], its result in lowest
    terms. *)
Definition Qround (prec : Z) (q : Q) : Q := Qred (round_to prec (Qred q)).

Definition fl (prec : Z) (a : number) : number :=
  match a with
  | Fin q => Fin (Qround prec q)
  | _ => a
  end.

(** The rounding of every binary64 operation. *)
Definition fl64 (a : number) : number := fl 53 a.

(** [Math.fround(a)], the rounding of a [Float32Array] store. *)
Definition fround (a : number) : number := fl 24 a.

(** [a * b] and [a / b] where the result is rounded. *)
Definition fmul (a b : number) : number := fl64 (mul a b).
Definition fdiv (a b : number) : number := fl64 (div a b).

(** [new Float32Array(l)] *)
Definition Float32Array (l : list number) : list number := map fround l.

(** [new Uint8Array(n)]: [n] zeros. *)
Definition Uint8Array (n : nat) : list number := replicate n (of_Z 0).

(** ** Collaborators

    [detect.js] imports the image-matrix library [cv], the tensor runtime,
    [labels.json] and the [Colors] class of [renderBox.js]; none of them is
    part of the sources modelled here.  The data they hold or compute are
    taken as parameters; where they refuse their input, the refusal is
    modelled. *)

Inductive dtype : Type := float32 | uint8.

(** A tensor of the runtime: element type, flat data, dimensions. *)
Record Tensor : Type := mkTensor {
  ttype : dtype;
  tdata : list number;
  dims : list nat
}.

(** The number of entries a shape asks for. *)
Definition size (shape : list nat) : nat := foldr Nat.mul 1%nat shape.

(** [new Tensor(type, data, dims)]: the constructor throws when the data
    do not have the length the dimensions ask for. *)
Definition new_Tensor (ty : dtype) (d : list number) (shape : list nat)
  : option Tensor :=
  if decide (length d = size shape) then Some (mkTensor ty d shape) else None.

(** [new Tensor(type, data)]: one dimension, the length of the data. *)
Definition new_Tensor1 (ty : dtype) (d : list number) : Tensor :=
  mkTensor ty d [length d].

Record Extern : Type := mkExtern {
  Image : Type;
  Color : Type;
  (** [labels.json] *)
  labels : list string;
  (** [colors.get(label)] *)
  colors_get : Z -> Color;
  (** [Colors.hexToRgba(color, alpha)] *)
  hexToRgba : Color -> number -> list number;
  (** [cv.imread(source).cols] and [.rows] *)
  imread_cols : Image -> nat;
  imread_rows : Image -> nat;
  (** [data32F] of the blob that [cvtColor], [resize], [copyMakeBorder] and
      [blobFromImage] produce from the source for the size [w] x [h], the
      paddings [xPad], [yPad] and the model size. *)
  blob_data : Image -> number -> number -> number -> number ->
              number -> number -> list number
}.

(** [cv.resize(src, dst, new cv.Size(w, h))] asserts that both scale
    factors are positive: it throws unless [0 < w] and [0 < h]. *)
Definition resizable (w h : number) : bool := lt (of_Z 0) w && lt (of_Z 0) h.

(** The three inference sessions [session.net], [session.nms] and
    [session.mask]; [None] stands for a call that fails. *)
Record Session : Type := mkSession {
  net_run : Tensor -> option (Tensor * Tensor);
  nms_run : Tensor -> Tensor -> option Tensor;
  mask_run : Tensor -> Tensor -> Tensor -> Tensor -> option Tensor
}.

(** ** Calls and failures

    [detectImage] awaits the sessions one call at a time.  A computation
    yields the calls it issued, in order, and either a value or the failure
    that ended it: nothing in [detect.js] catches an exception. *)

Inductive call : Type :=
  | CallNet (images : Tensor)
  | CallNms (detection config : Tensor)
  | CallMask (detection mask config overlay : Tensor).

Inductive failure : Type :=
  | ShapeFailure      (* a dimension of [inputShape] is [undefined] *)
  | ResizeFailure     (* [cv.resize] refuses the size *)
  | TensorFailure     (* the tensor constructor refuses the data *)
  | NetFailure
  | NmsFailure
  | MaskFailure.

Inductive result (A : Type) : Type :=
  | Ok (a : A)
  | Throw (e : failure).
Arguments Ok {A} a.
Arguments Throw {A} e.

Definition M (A : Type) : Type := list call * result A.

Definition ret {A} (a : A) : M A := ([], Ok a).

Definition bind {A B} (m : M A) (f : A -> M B) : M B :=
  match m with
  | (l, Ok a) => let (l', r) := f a in (l ++ l', r)
  | (l, Throw e) => (l, Throw e)
  end.

Notation "'let*' x ':=' m 'in' k" := (bind m (fun x => k))
  (at level 10, x name, m at level 100, k at level 200).

Definition await {A} (c : call) (e : failure) (o : option A) : M A :=
  ([c], match o with Some a => Ok a | None => Throw e end).

Definition required {A} (e : failure) (o : option A) : M A :=
  ([], match o with Some a => Ok a | None => Throw e end).

(** A step that issues no call. *)
Definition lift {A} (r : result A) : M A := ([], r).

(** ** Preprocessing *)

Section Pipeline.

Variable E : Extern.

(** [preprocessing(source, modelWidth, modelHeight, stride)]: the blob data
    and the two ratios.  [cv.resize] throws on a size it refuses; when it
    returns, the matrix has the size asked for, [w] columns and [h]
    rows. *)
Definition preprocessing (source : Image E) (modelWidth modelHeight stride : number)
  : result (list number * number * number) :=
  let '(w, h) := divStride stride (of_nat (imread_cols E source))
                                  (of_nat (imread_rows E source)) in
  if resizable w h then
    let cols := w in
    let rows := h in
    let maxSize := Math_max2 rows cols in
    let xPad := sub maxSize cols in
    let xRatio := fdiv maxSize cols in
    let yPad := sub maxSize rows in
    let yRatio := fdiv maxSize rows in
    let input := blob_data E source w h xPad yPad modelWidth modelHeight in
    Ok (input, xRatio, yRatio)
  else Throw ResizeFailure.

(** The default [stride = 32]. *)
Definition default_stride : number := of_Z 32.

(** ** Decoding one row *)

Definition numClass : nat := length (labels E).

(** [labels[label]] *)
Definition labels_at (label : Z) : option string :=
  if (label <? 0)%Z then None else labels E !! Z.to_nat label.

(** An entry of [boxes]. *)
Record Detection : Type := mkDetection {
  label : option string;
  probability : number;
  color : Color E;
  bounding : Box
}.

(** Row [idx] of [selected]. *)
Definition row (selected : Tensor) (idx : nat) : list number :=
  let d2 := default 0%nat (dims selected !! 2%nat) in
  slice (tdata selected) (idx * d2) ((idx + 1) * d2).

(** The box of the row, before upscaling, after the first clip. *)
Definition modelBox (data : list number) (maxSize : number) : Box :=
  let box := slice data 0 4 in
  overflowBoxes
    (mkBox (sub (elem box 0) (mul (Fin (1 # 2)) (elem box 2)))
           (sub (elem box 1) (mul (Fin (1 # 2)) (elem box 3)))
           (elem box 2)
           (elem box 3))
    maxSize.

(** The upscaled box, after the second clip. *)
Definition upscaledBox (box : Box) (xRatio yRatio maxSize : number) : Box :=
  overflowBoxes
    (mkBox (Math_floor (fmul (b0 box) xRatio))
           (Math_floor (fmul (b1 box) yRatio))
           (Math_floor (fmul (b2 box) xRatio))
           (Math_floor (fmul (b3 box) yRatio)))
    maxSize.

(** The record pushed on [boxes] for the row [data]. *)
Definition decode (data : list number) (xRatio yRatio maxSize : number) : Detection :=
  let scores := slice data 4 (4 + numClass) in
  let score := Math_max scores in
  let label := indexOf scores score in
  let color := colors_get E label in
  let box := modelBox data maxSize in
  let b := upscaledBox box xRatio yRatio maxSize in
  mkDetection (labels_at label) score color b.

(** The two tensors handed to [session.mask.run] for the row. *)
Definition maskInput (data : list number) (maxSize : number) : Tensor :=
  new_Tensor1 float32
    (Float32Array
       (box_list (modelBox data maxSize) ++ slice_from data (4 + numClass))).

Definition maskConfig (d : Detection) (maxSize : number) : Tensor :=
  new_Tensor1 float32
    (Float32Array
       ([maxSize; b0 (bounding d); b1 (bounding d); b2 (bounding d); b3 (bounding d)]
          ++ hexToRgba E (color d) (of_Z 120))).

(** ** The pass *)

Variable session : Session.

(** One iteration of the loop over the rows. *)
Definition iteration (selected output1 : Tensor) (xRatio yRatio maxSize : number)
    (idx : nat) (st : list Detection * Tensor) : M (list Detection * Tensor) :=
  let '(boxes, overlay) := st in
  let data := row selected idx in
  let d := decode data xRatio yRatio maxSize in
  let boxes := boxes ++ [d] in
  let mask := maskInput data maxSize in
  let cfg := maskConfig d maxSize in
  let* mask_filter := await (CallMask mask output1 cfg overlay) MaskFailure
                        (mask_run session mask output1 cfg overlay) in
  ret (boxes, mask_filter).

(** [for (let idx = ...; idx < selected.dims[1]; idx++)], with [n] the
    iterations left. *)
Fixpoint loop (selected output1 : Tensor) (xRatio yRatio maxSize : number)
    (n idx : nat) (st : list Detection * Tensor) : M (list Detection * Tensor) :=
  match n with
  | O => ret st
  | S n' =>
      let* st' := iteration selected output1 xRatio yRatio maxSize idx st in
      loop selected output1 xRatio yRatio maxSize n' (S idx) st'
  end.

(** The number of iterations: [selected.dims[1]], none when it is
    [undefined]. *)
Definition selectedCount (selected : Tensor) : nat :=
  default 0%nat (dims selected !! 1%nat).

(** The tensor that [new Tensor("uint8", new Uint8Array(modelHeight *
    modelWidth * 4), [modelHeight, modelWidth, 4])] builds. *)
Definition emptyOverlay (modelWidth modelHeight : nat) : Tensor :=
  mkTensor uint8 (Uint8Array (modelHeight * modelWidth * 4))
    [modelHeight; modelWidth; 4%nat].

(** [detectImage]: the boxes handed to [renderBoxes] and the overlay put on
    the canvas; the drawing itself is outside the model.
    [inputShape.slice(2)] is destructured into [modelWidth] and
    [modelHeight]; with fewer than four entries one of them is [undefined],
    which no tensor accepts as a dimension. *)
Definition detectImage (image : Image E) (topk iouThreshold scoreThreshold : number)
    (inputShape : list nat) : M (list Detection * Tensor) :=
  let* modelWidth := required ShapeFailure (slice_from inputShape 2 !! 0%nat) in
  let* modelHeight := required ShapeFailure (slice_from inputShape 2 !! 1%nat) in
  let maxSize := Math_max2 (of_nat modelWidth) (of_nat modelHeight) in
  let* pre := lift (preprocessing image (of_nat modelWidth) (of_nat modelHeight)
                      default_stride) in
  let '(input, xRatio, yRatio) := pre in
  let* tensor := required TensorFailure (new_Tensor float32 input inputShape) in
  let config := new_Tensor1 float32
                  (Float32Array
                     [of_nat numClass; topk; iouThreshold; scoreThreshold]) in
  let* out := await (CallNet tensor) NetFailure (net_run session tensor) in
  let '(output0, output1) := out in
  let* selected := await (CallNms output0 config) NmsFailure
                     (nms_run session output0 config) in
  let boxes := [] in
  let* overlay := required TensorFailure
                    (new_Tensor uint8 (Uint8Array (modelHeight * modelWidth * 4))
                       [modelHeight; modelWidth; 4%nat]) in
  loop selected output1 xRatio yRatio maxSize (selectedCount selected) 0 (boxes, overlay).

End Pipeline.

Arguments label {E} d.
Arguments probability {E} d.
Arguments color {E} d.
Arguments bounding {E} d.

(** ** The integer reading of [divStride]

    On integers [roundStride] is the function below: [Z.rem] is the
    remainder [%], whose sign is that of the dividend, and [Z.div] is
    [Math.floor] of the quotient. *)

Definition roundStrideZ (s d : Z) : Z :=
  if (Z.rem d s =? 0)%Z then d
  else if (s <=? 2 * Z.rem d s)%Z then ((d / s + 1) * s)%Z
  else (d / s * s)%Z.

(** A box of finite coordinates. *)
Definition finBox (x y w h : Q) : Box := mkBox (Fin x) (Fin y) (Fin w) (Fin h).

(** A box of integer coordinates. *)
Definition intBox (x y w h : Z) : Box := mkBox (of_Z x) (of_Z y) (of_Z w) (of_Z h).

(** What [overflowBoxes] does to one axis: the start is clamped at 0, then
    the extent is cut to end at [m]. *)
Definition clampStart (x : number) : number :=
  if ge x (of_Z 0) then x else of_Z 0.

Definition cutExtent (x' w m : number) : number :=
  if le (add x' w) m then w else sub m x'.

(** The local [maxSize] of [preprocessing]: the side of the square the
    resized image is padded to. *)
Definition paddedSide (E : Extern) (source : Image E) (stride : number) : number :=
  let '(w, h) := divStride stride (of_nat (imread_cols E source))
                                  (of_nat (imread_rows E source)) in
  Math_max2 h w.

(** ** The box of the specification

    The stages of section 4.4 on rationals, in the words of the
    specification: the box is recentred, clipped (start clamped to at least
    0, extent shrunk to the minimum of itself and what is left up to the
    bound), scaled by the ratios and floored, and clipped again. *)








(** ** The mask call of a row *)

Section MaskCall.

Variables (E : Extern) (session : Session).
Variables (selected output1 : Tensor) (xRatio yRatio maxSize : number).

Definition decodeAt (idx : nat) : Detection E :=
  decode E (row selected idx) xRatio yRatio maxSize.

Definition maskCall (idx : nat) (ov : Tensor) : call :=
  CallMask (maskInput E (row selected idx) maxSize) output1
           (maskConfig E (decodeAt idx) maxSize) ov.

Definition maskResult (idx : nat) (ov : Tensor) : option Tensor :=
  mask_run session (maskInput E (row selected idx) maxSize) output1
           (maskConfig E (decodeAt idx) maxSize) ov.

End MaskCall.

(** ** The fate of a call

    Whether the session answered the call or failed it. *)

Definition call_answered (session : Session) (c : call) : Prop :=
  match c with
  | CallNet images => is_Some (net_run session images)
  | CallNms detection config => is_Some (nms_run session detection config)
  | CallMask detection mask config overlay =>
      is_Some (mask_run session detection mask config overlay)
  end.

Definition call_failed (session : Session) (c : call) : Prop :=
  match c with
  | CallNet images => net_run session images = None
  | CallNms detection config => nms_run session detection config = None
  | CallMask detection mask config overlay =>
      mask_run session detection mask config overlay = None
  end.

(** ** A small instance

    Two classes, an image given by its size, a blob of zeros of the size
    [blobFromImage] gives it (three channels of the model size), a detector
    that hands its input on, a selector that returns a fixed tensor and a
    mask generator that returns the overlay it was given. *)

Definition demoBlob (modelWidth modelHeight : nat) : list number :=
  replicate (3 * modelWidth * modelHeight) (of_Z 0).

(** A size read back from a number. *)
Definition size_of (a : number) : nat :=
  match a with
  | Fin q => Z.to_nat (Qfloor q)
  | _ => 0%nat
  end.

Definition demoExtern : Extern :=
  mkExtern (nat * nat) Z ["person"; "bicycle"]%string
    (fun l => l)
    (fun c alpha => [of_Z c; of_Z c; of_Z c; alpha])
    fst snd
    (fun _ _ _ _ _ modelWidth modelHeight =>
       demoBlob (size_of modelWidth) (size_of modelHeight)).

Definition demoSession (selected : Tensor) : Session :=
  mkSession (fun t => Some (t, t)) (fun _ _ => Some selected)
            (fun _ _ _ ov => Some ov).

(** One row [[100, 100, 50, 50, 0.9, 0.1]] followed by two mask
    coefficients. *)
Definition demoSelected : Tensor :=
  mkTensor float32
    [Fin 100; Fin 100; Fin 50; Fin 50; Fin (9 # 10); Fin (1 # 10); Fin 7; Fin 8]
    [1; 1; 8]%nat.

(** One row of five entries, one fewer than [4 + numClass]. *)
Definition shortSelected : Tensor :=
  mkTensor float32 [Fin 100; Fin 100; Fin 50; Fin 50; Fin (9 # 10)] [1; 1; 5]%nat.

(** One row whose box is wider than the model input. *)
Definition wideSelected : Tensor :=
  mkTensor float32
    [Fin 500; Fin 101; Fin 1000; Fin 50; Fin (9 # 10); Fin (1 # 10)]
    [1; 1; 6]%nat.

(** One row whose box starts low in the model input. *)
Definition lowSelected : Tensor :=
  mkTensor float32
    [Fin 100; Fin 620; Fin 50; Fin 32; Fin (9 # 10); Fin (1 # 10)]
    [1; 1; 6]%nat.

(** Two rows of six entries. *)
Definition twoSelected : Tensor :=
  mkTensor float32
    [Fin 100; Fin 100; Fin 50; Fin 50; Fin (9 # 10); Fin (1 # 10);
     Fin 200; Fin 300; Fin 40; Fin 60; Fin (1 # 5); Fin (7 # 10)]
    [1; 2; 6]%nat.

(** The shape [[1, 3, 640, 640]] and the thresholds of [App.js]. *)
Definition modelInputShape : list nat := [1; 3; 640; 640]%nat.
Definition appTopk : number := of_Z 100.
Definition appIouThreshold : number := Fin (45 # 100).
Definition appScoreThreshold : number := Fin (25 # 100).

(** The selected tensor of a pass that kept no detection. *)
Definition noneSelected : Tensor := mkTensor float32 [] [1; 0; 38]%nat.

(** The tensor built from the blob of the instance. *)
Definition demoTensor : Tensor := mkTensor float32 (demoBlob 640 640) modelInputShape.

(** [yRatio] of a 1280 x 960 image: the binary64 number nearest to 4/3. *)
Definition fourThirds : Q := 6004799503160661 # 4503599627370496.

(** A closed pass of the instance, evaluated: [Hpass] unfolds the pass once
    the preprocessing [Hpre] has returned. *)
Ltac run_demo Hpass Hpre :=
  etransitivity; [exact (Hpass _ _ _ _ _ _ _ Hpre)|];
  cbv -[emptyOverlay demoBlob demoTensor]; reflexivity.

(** ** Properties of the geometry utilities *)

Section Geometry.

Local Open Scope Q_scope.

Lemma le_Fin (p q : Q) : le (Fin p) (Fin q) = true <-> p <= q.
Proof. apply Qle_bool_iff. Qed.

Lemma le_Fin_false (p q : Q) : le (Fin p) (Fin q) = false <-> q < p.
Proof.
  simpl. split; intros H.
  - apply Qnot_le_lt. intros Hle. apply Qle_bool_iff in Hle. congruence.
  - destruct (Qle_bool p q) eqn:Hb; [|reflexivity].
    apply Qle_bool_iff in Hb. lra.
Qed.

Lemma overflowBoxes_axes (b : Box) (m : number) :
  overflowBoxes b m =
  mkBox (clampStart (b0 b)) (clampStart (b1 b))
        (cutExtent (clampStart (b0 b)) (b2 b) m)
        (cutExtent (clampStart (b1 b)) (b3 b) m).
Proof. reflexivity. Qed.

Lemma clampStart_fin (x : Q) :
  exists x', clampStart (Fin x) = Fin x' /\ 0 <= x' /\ (0 <= x -> x' = x).
Proof.
  unfold clampStart, ge, of_Z. destruct (le (Fin (inject_Z 0)) (Fin x)) eqn:Hx.
  - exists x. apply le_Fin in Hx. auto.
  - exists (inject_Z 0). apply le_Fin_false in Hx. repeat split.
    + discriminate.
    + intros H. change (inject_Z 0) with 0 in Hx. lra.
Qed.

Lemma cutExtent_fin (x w m : Q) :
  exists w', cutExtent (Fin x) (Fin w) (Fin m) = Fin w' /\ x + w' <= m
             /\ (x + w <= m -> w' = w) /\ (m < x + w -> w' = m - x).
Proof.
  unfold cutExtent. simpl add. destruct (le (Fin (x + w)) (Fin m)) eqn:Hw.
  - exists w. apply le_Fin in Hw. repeat split; auto. intros; lra.
  - exists (m - x). apply le_Fin_false in Hw. repeat split.
    + lra.
    + intros; lra.
Qed.

Lemma clampStart_idem (x : number) : clampStart (clampStart x) = clampStart x.
Proof.
  unfold clampStart. destruct (ge x (of_Z 0)) eqn:Hx.
  - now rewrite Hx.
  - reflexivity.
Qed.

Lemma cutExtent_idem (x w m : number) :
  cutExtent x (cutExtent x w m) m = cutExtent x w m.
Proof.
  unfold cutExtent at 2 3. destruct (le (add x w) m) eqn:Hw.
  - unfold cutExtent. now rewrite Hw.
  - unfold cutExtent. now destruct (le (add x (sub m x)) m).
Qed.

(** C2. For every box [[x, y, w, h]] of finite coordinates and every finite
    bound [m], the box [[x', y', w', h']] returned by [overflowBoxes]
    satisfies [0 <= x'], [0 <= y'], [x' + w' <= m] and [y' + h' <= m]. *)
Theorem overflowBoxes_in_range (x y w h m : Q) :
  exists x' y' w' h',
    overflowBoxes (finBox x y w h) (Fin m) = finBox x' y' w' h'
    /\ 0 <= x' /\ 0 <= y' /\ x' + w' <= m /\ y' + h' <= m.
Proof.
  rewrite overflowBoxes_axes. simpl b0; simpl b1; simpl b2; simpl b3.
  destruct (clampStart_fin x) as (x' & -> & Hx & _).
  destruct (clampStart_fin y) as (y' & -> & Hy & _).
  destruct (cutExtent_fin x' w m) as (w' & -> & Hw & _).
  destruct (cutExtent_fin y' h m) as (h' & -> & Hh & _).
  exists x', y', w', h'. auto.
Qed.

(** C7. [overflowBoxes] is idempotent: clipping a clipped box against the
    same bound returns it unchanged, for every box and bound, the special
    values included. *)
Theorem overflowBoxes_idempotent (b : Box) (m : number) :
  overflowBoxes (overflowBoxes b m) m = overflowBoxes b m.
Proof.
  rewrite !overflowBoxes_axes. simpl b0; simpl b1; simpl b2; simpl b3.
  rewrite !clampStart_idem, !cutExtent_idem. reflexivity.
Qed.

End Geometry.

(** ** Properties of the stride rounding *)

Section Stride.

Local Open Scope Z_scope.

Lemma of_Z_eq (a b : Z) : a = b -> of_Z a = of_Z b.
Proof. congruence. Qed.

Lemma Qeq_bool_pos (p : positive) : Qeq_bool (inject_Z (Z.pos p)) 0 = false.
Proof. reflexivity. Qed.

Lemma Qminus_Z (a b : Z) : Fin (inject_Z a - inject_Z b) = of_Z (a - b).
Proof. unfold of_Z, inject_Z, Qminus, Qplus, Qopp. cbn. apply f_equal. f_equal. lia. Qed.

Lemma Qmult_Z (a b : Z) : (inject_Z a * inject_Z b)%Q = inject_Z (a * b).
Proof. reflexivity. Qed.

Lemma Qplus_Z (a b : Z) : (inject_Z a + inject_Z b)%Q = inject_Z (a + b).
Proof. unfold inject_Z, Qplus. cbn. f_equal. lia. Qed.

Lemma Qtrunc_div_Z (d : Z) (p : positive) :
  Qtrunc (inject_Z d / inject_Z (Z.pos p)) = Z.quot d (Z.pos p).
Proof. cbn. now rewrite Z.mul_1_r. Qed.

Lemma Qfloor_div_Z (d : Z) (p : positive) :
  Qfloor (inject_Z d / inject_Z (Z.pos p)) = d / Z.pos p.
Proof. cbn. now rewrite Z.mul_1_r. Qed.

Lemma rem_of_Z (s d : Z) : 0 < s -> rem (of_Z d) (of_Z s) = of_Z (Z.rem d s).
Proof.
  intros Hs. destruct s as [|p|p]; try lia.
  unfold rem, of_Z. rewrite Qeq_bool_pos, Qtrunc_div_Z, Qmult_Z, Qminus_Z.
  apply of_Z_eq. pose proof (Z.quot_rem' d (Z.pos p)). lia.
Qed.

Lemma floor_div_of_Z (s d : Z) :
  0 < s -> Math_floor (div (of_Z d) (of_Z s)) = of_Z (d / s).
Proof.
  intros Hs. destruct s as [|p|p]; try lia.
  unfold div, of_Z. rewrite Qeq_bool_pos. unfold Math_floor.
  now rewrite Qfloor_div_Z.
Qed.

Lemma ge_half_of_Z (s r : Z) :
  0 < s -> ge (of_Z r) (div (of_Z s) (of_Z 2)) = (s <=? 2 * r).
Proof.
  intros Hs. unfold ge, div, of_Z. change (Qeq_bool (inject_Z 2) 0) with false.
  cbn [le]. destruct (s <=? 2 * r) eqn:H.
  - apply Qle_bool_iff. apply Z.leb_le in H.
    unfold Qle, Qdiv, Qmult, Qinv, inject_Z. cbn. lia.
  - destruct (Qle_bool _ _) eqn:Hq; [|reflexivity].
    apply Qle_bool_iff in Hq. apply Z.leb_gt in H.
    unfold Qle, Qdiv, Qmult, Qinv, inject_Z in Hq. cbn in Hq. lia.
Qed.

Lemma strict_ne_of_Z (r : Z) : strict_ne (of_Z r) (of_Z 0) = negb (r =? 0).
Proof.
  unfold strict_ne, strict_eq, of_Z. f_equal.
  unfold Qeq_bool, inject_Z. cbn. rewrite Z.mul_1_r.
  destruct r; reflexivity.
Qed.

Lemma roundStride_of_Z (s d : Z) :
  0 < s -> roundStride (of_Z s) (of_Z d) = of_Z (roundStrideZ s d).
Proof.
  intros Hs. unfold roundStride, roundStrideZ.
  rewrite (rem_of_Z s d Hs), strict_ne_of_Z, (ge_half_of_Z s _ Hs),
    (floor_div_of_Z s d Hs).
  destruct (Z.rem d s =? 0); cbn [negb]; [reflexivity|].
  destruct (s <=? 2 * Z.rem d s).
  - unfold mul, add, of_Z. rewrite Qplus_Z, Qmult_Z. reflexivity.
  - unfold mul, of_Z. rewrite Qmult_Z. reflexivity.
Qed.

Lemma roundStrideZ_spec (s d : Z) :
  0 < s ->
  (s | roundStrideZ s d) /\ Z.abs (roundStrideZ s d - d) < s
  /\ (s <= 2 * Z.rem d s -> d < roundStrideZ s d < d + s)
  /\ (2 * Z.rem d s < s -> roundStrideZ s d <= d < roundStrideZ s d + s).
Proof.
  intros Hs. unfold roundStrideZ.
  pose proof (Z.div_mod d s ltac:(lia)) as Hdm.
  pose proof (Z.mod_pos_bound d s Hs) as Hm.
  pose proof (Z.quot_rem' d s) as Hqr.
  destruct (Z.rem d s =? 0) eqn:Hr0.
  - apply Z.eqb_eq in Hr0. repeat split; try lia.
    exists (Z.quot d s). lia.
  - apply Z.eqb_neq in Hr0.
    assert (Hmod0 : d mod s <> 0).
    { intros H0. apply Hr0. apply Z.rem_divide; [lia|].
      apply Z.mod_divide; [lia|exact H0]. }
    destruct (s <=? 2 * Z.rem d s) eqn:Hh.
    + apply Z.leb_le in Hh. repeat split; try nia.
      exists (d / s + 1). lia.
    + apply Z.leb_gt in Hh. repeat split; try nia.
      exists (d / s). lia.
Qed.


(** C3. For integers [width], [height] and a stride [s > 0], both
    dimensions returned by [divStride] are multiples of [s] and differ from
    the dimension given by less than [s]; a dimension whose remainder [%] is
    at least [s / 2] is rounded up to the next multiple of [s], any other
    is rounded down. *)
Theorem divStride_nearest_multiple (s width height : Z) :
  0 < s ->
  exists w' h',
    divStride (of_Z s) (of_Z width) (of_Z height) = (of_Z w', of_Z h')
    /\ (s | w') /\ Z.abs (w' - width) < s
    /\ (s | h') /\ Z.abs (h' - height) < s
    /\ (s <= 2 * Z.rem width s -> width < w' < width + s)
    /\ (2 * Z.rem width s < s -> w' <= width < w' + s)
    /\ (s <= 2 * Z.rem height s -> height < h' < height + s)
    /\ (2 * Z.rem height s < s -> h' <= height < h' + s).
Proof.
  intros Hs. exists (roundStrideZ s width), (roundStrideZ s height).
  unfold divStride. rewrite !roundStride_of_Z by exact Hs.
  destruct (roundStrideZ_spec s width Hs) as (Hw1 & Hw2 & Hw3 & Hw4).
  destruct (roundStrideZ_spec s height Hs) as (Hh1 & Hh2 & Hh3 & Hh4).
  tauto.
Qed.

(** [divStride(32, 650, 10)] is [[640, 0]]. *)
Lemma divStride_nearest_multiple_witness :
  (0 < 32) /\
  exists w' h',
    divStride (of_Z 32) (of_Z 650) (of_Z 10) = (of_Z w', of_Z h')
    /\ (32 | w') /\ Z.abs (w' - 650) < 32
    /\ (32 | h') /\ Z.abs (h' - 10) < 32
    /\ (32 <= 2 * Z.rem 650 32 -> 650 < w' < 650 + 32)
    /\ (2 * Z.rem 650 32 < 32 -> w' <= 650 < w' + 32)
    /\ (32 <= 2 * Z.rem 10 32 -> 10 < h' < 10 + 32)
    /\ (2 * Z.rem 10 32 < 32 -> h' <= 10 < h' + 32).
Proof. split; [lia | apply (divStride_nearest_multiple 32 650 10); lia]. Defined.

End Stride.
(** ** Properties of the rounding *)

Section Binary.

Local Open Scope Q_scope.

Lemma pow2_pos (k : Z) : 0 < pow2 k.
Proof. apply Qpower_0_lt. reflexivity. Qed.

Lemma pow2_plus (n m : Z) : pow2 (n + m) == pow2 n * pow2 m.
Proof. apply Qpower_plus. discriminate. Qed.

Lemma pow2_Z (n : Z) : (0 <= n)%Z -> pow2 n == inject_Z (2 ^ n).
Proof. intros Hn. unfold pow2. now rewrite (Zpower_Qpower 2 n Hn). Qed.

Lemma pow2_le (n m : Z) : (n <= m)%Z -> pow2 n <= pow2 m.
Proof. intros H. apply Qpower_le_compat_l; [exact H | discriminate]. Qed.

(** The exponent found by [ilog2] is not above the number. *)
Lemma ilog2_lower (a : Q) : 0 < a -> pow2 (ilog2 a) <= a.
Proof.
  intros Ha. unfold ilog2.
  set (k0 := (Z.log2 (Qnum a) - Z.log2 (Z.pos (Qden a)))%Z).
  destruct (Qle_bool (pow2 k0) a) eqn:Hk; [now apply Qle_bool_iff|].
  destruct a as [n d]. cbn [Qnum Qden] in k0.
  assert (Hn : (0 < n)%Z).
  { unfold Qlt in Ha. cbn in Ha. lia. }
  pose proof (Z.log2_spec n Hn) as [Hn1 _].
  pose proof (Z.log2_spec (Z.pos d) eq_refl) as [_ Hd2].
  pose proof (Z.log2_nonneg n) as Hln.
  pose proof (Z.log2_nonneg (Z.pos d)) as Hld.
  assert (Hsplit : pow2 (Z.log2 n) == pow2 (k0 - 1) * pow2 (Z.succ (Z.log2 (Z.pos d)))).
  { rewrite <- pow2_plus. subst k0.
    now replace (Z.log2 n - Z.log2 (Z.pos d) - 1 + Z.succ (Z.log2 (Z.pos d)))%Z
      with (Z.log2 n) by lia. }
  rewrite (pow2_Z (Z.log2 n)), (pow2_Z (Z.succ (Z.log2 (Z.pos d)))) in Hsplit by lia.
  pose proof (pow2_pos (k0 - 1)) as Hp.
  rewrite Zle_Qle in Hn1. rewrite Zlt_Qlt in Hd2.
  assert (Hnd : inject_Z n == (n # d) * inject_Z (Z.pos d)).
  { unfold Qeq, Qmult, inject_Z. cbn. lia. }
  assert (Hdpos : 0 < inject_Z (Z.pos d)) by reflexivity.
  set (D := inject_Z (Z.pos d)) in *. set (P := pow2 (k0 - 1)) in *.
  set (T := inject_Z (2 ^ Z.succ (Z.log2 (Z.pos d)))) in *.
  set (A := n # d) in *. set (L := inject_Z (2 ^ Z.log2 n)) in *.
  set (N := inject_Z n) in *.
  destruct (Qlt_le_dec A P) as [Hlt|Hle]; [|exact Hle].
  exfalso. assert (A * D < P * T) by nra. nra.
Qed.

Lemma ilog2_nonneg (a : Q) : 1 <= a -> (0 <= ilog2 a)%Z.
Proof.
  intros Ha. unfold ilog2.
  set (k0 := (Z.log2 (Qnum a) - Z.log2 (Z.pos (Qden a)))%Z).
  assert (Hk0 : (0 <= k0)%Z).
  { subst k0. destruct a as [n d]. cbn [Qnum Qden].
    assert (Z.pos d <= n)%Z by (unfold Qle in Ha; cbn in Ha; lia).
    pose proof (Z.log2_le_mono _ _ H). lia. }
  destruct (Qle_bool (pow2 k0) a) eqn:Hk; [exact Hk0|].
  destruct (Z.eq_dec k0 0%Z) as [E0|]; [|lia].
  rewrite E0 in Hk. change (pow2 0) with 1 in Hk.
  apply Qle_bool_iff in Ha. congruence.
Qed.

Lemma round_half_even_floor (x : Q) : (Qfloor x <= round_half_even x)%Z.
Proof.
  unfold round_half_even.
  destruct (Qle_bool _ _); [destruct (Qle_bool _ _); [destruct (Z.even _)|]|]; lia.
Qed.

(** Rounding a positive number does not take it below its power of 2. *)
Lemma round_pos_lower (prec : Z) (a : Q) :
  (1 <= prec)%Z -> 0 < a -> pow2 (ilog2 a) <= round_pos prec a.
Proof.
  intros Hp Ha. unfold round_pos.
  set (k := ilog2 a). set (e := (k - (prec - 1))%Z).
  pose proof (ilog2_lower a Ha) as Hlow. fold k in Hlow.
  pose proof (pow2_pos e) as He.
  assert (Hk : pow2 k == pow2 (prec - 1) * pow2 e).
  { rewrite <- pow2_plus. subst e. now replace (prec - 1 + (k - (prec - 1)))%Z with k by lia. }
  assert (Hx : inject_Z (2 ^ (prec - 1)) <= a / pow2 e).
  { rewrite <- pow2_Z by lia. apply Qle_shift_div_l; [exact He|]. now rewrite <- Hk. }
  apply Qfloor_resp_le in Hx. rewrite Qfloor_Z in Hx.
  pose proof (round_half_even_floor (a / pow2 e)) as Hr.
  assert (Hz : inject_Z (2 ^ (prec - 1)) <= inject_Z (round_half_even (a / pow2 e))).
  { rewrite <- Zle_Qle. lia. }
  rewrite Hk, (pow2_Z (prec - 1)) by lia.
  apply Qmult_le_compat_r; [exact Hz | now apply Qlt_le_weak].
Qed.

Lemma Qround_compat (prec : Z) (p q : Q) : p == q -> Qround prec p = Qround prec q.
Proof. intros H. unfold Qround. now rewrite (Qred_complete p q H). Qed.

(** A number that is at least 1 is not rounded below 1. *)
Lemma Qround_ge_1 (prec : Z) (q : Q) : (1 <= prec)%Z -> 1 <= q -> 1 <= Qround prec q.
Proof.
  intros Hp Hq. unfold Qround. rewrite Qred_correct.
  assert (Hq' : 1 <= Qred q) by now rewrite Qred_correct.
  set (a := Qred q) in *. unfold round_to.
  destruct (Qeq_bool a 0) eqn:H0.
  { apply Qeq_bool_iff in H0. lra. }
  destruct (Qle_bool 0 a) eqn:H1.
  - apply Qle_trans with (pow2 (ilog2 a)).
    + apply (Qpower_1_le 2); [discriminate | now apply ilog2_nonneg].
    + apply round_pos_lower; [exact Hp | lra].
  - assert (0 <= a) by lra. apply Qle_bool_iff in H. congruence.
Qed.

Lemma Qround_1 (q : Q) : q == 1 -> Qround 53 q = 1.
Proof. intros H. now rewrite (Qround_compat 53 q 1 H). Qed.

Lemma fl_Fin (prec : Z) (q : Q) : fl prec (Fin q) = Fin (Qround prec q).
Proof. reflexivity. Qed.

End Binary.

(** ** Properties of the preprocessing *)

Section Ratios.

Local Open Scope Z_scope.

Variables (E : Extern) (source : Image E) (modelWidth modelHeight : number).

Lemma preprocessing_steps (stride w h : number) :
  divStride stride (of_nat (imread_cols E source)) (of_nat (imread_rows E source))
    = (w, h) ->
  preprocessing E source modelWidth modelHeight stride
  = if resizable w h then
      Ok (blob_data E source w h (sub (Math_max2 h w) w) (sub (Math_max2 h w) h)
            modelWidth modelHeight,
          fdiv (Math_max2 h w) w, fdiv (Math_max2 h w) h)
    else Throw ResizeFailure.
Proof. intros Hd. unfold preprocessing. now rewrite Hd. Qed.

Lemma Math_max2_of_Z (a b : Z) : Math_max2 (of_Z a) (of_Z b) = of_Z (Z.max a b).
Proof.
  unfold Math_max2, of_Z, lt, Qle_bool, inject_Z. cbn [Qnum Qden].
  rewrite !Z.mul_1_r. destruct (Z.leb_spec b a); cbn [negb].
  - now rewrite Z.max_l by lia.
  - now rewrite Z.max_r by lia.
Qed.

Lemma resizable_of_Z (w h : Z) : resizable (of_Z w) (of_Z h) = (0 <? w) && (0 <? h).
Proof.
  unfold resizable, lt, of_Z, Qle_bool, inject_Z. cbn [Qnum Qden].
  rewrite !Z.mul_1_r. now rewrite !Z.ltb_antisym.
Qed.

Lemma divStride_of_Z (s c r : Z) :
  0 < s ->
  divStride (of_Z s) (of_Z c) (of_Z r) = (of_Z (roundStrideZ s c), of_Z (roundStrideZ s r)).
Proof. intros Hs. unfold divStride. now rewrite !roundStride_of_Z by exact Hs. Qed.


End Ratios.

(** ** Properties of the decoder *)

Section Decoder.

Local Open Scope Q_scope.

Lemma fold_max_fin (l : list Q) (a : Q) :
  exists p, fold_left Math_max2 (map Fin l) (Fin a) = Fin p
            /\ In p (a :: l) /\ a <= p /\ Forall (fun s => s <= p) l.
Proof.
  revert a. induction l as [|x l IH]; intros a.
  - exists a. simpl. repeat split; auto. lra.
  - cbn [map fold_left]. unfold Math_max2 at 2. cbn [lt].
    destruct (Qle_bool x a) eqn:Hxa; cbn [negb].
    + apply Qle_bool_iff in Hxa.
      destruct (IH a) as (p & Hp & Hin & Hap & Hall).
      exists p. split; [exact Hp|]. split; [|split; [exact Hap|]].
      * destruct Hin as [->|Hin]; [now left | now right; right].
      * constructor; [lra | exact Hall].
    + assert (a < x) as Hlt.
      { apply Qnot_le_lt. intros H. apply Qle_bool_iff in H. congruence. }
      destruct (IH x) as (p & Hp & Hin & Hxp & Hall).
      exists p. split; [exact Hp|]. split; [|split].
      * now right.
      * lra.
      * constructor; [exact Hxp | exact Hall].
Qed.

Lemma Math_max_fin (x : Q) (l : list Q) :
  exists p, Math_max (map Fin (x :: l)) = Fin p
            /\ In p (x :: l) /\ Forall (fun s => s <= p) (x :: l).
Proof.
  destruct (fold_max_fin l x) as (p & Hp & Hin & Hxp & Hall).
  exists p. repeat split; auto.
Qed.

Lemma indexOf_from_first (l : list Q) (p : Q) (k : Z) :
  (exists s, In s l /\ s == p) ->
  exists (i : nat) (s : Q),
    indexOf_from (map Fin l) (Fin p) k = (k + Z.of_nat i)%Z
    /\ l !! i = Some s /\ s == p
    /\ forall (j : nat) (s' : Q), (j < i)%nat -> l !! j = Some s' -> ~ s' == p.
Proof.
  revert k. induction l as [|x l IH]; intros k (s & Hin & Hs).
  - destruct Hin.
  - cbn [map indexOf_from strict_eq]. destruct (Qeq_bool x p) eqn:Hx.
    + apply Qeq_bool_iff in Hx. exists 0%nat, x. repeat split; auto.
      * lia.
      * intros j s' Hj. lia.
    + assert (~ x == p) as Hne.
      { intros H. apply Qeq_bool_iff in H. congruence. }
      destruct (IH (k + 1)%Z) as (i & s0 & Hi & Hl & Hs0 & Hfirst).
      { destruct Hin as [->|Hin]; [contradiction | eauto]. }
      exists (S i), s0. repeat split; auto.
      * rewrite Hi. lia.
      * intros [|j] s' Hj Hl'.
        -- cbn in Hl'. now inversion Hl'; subst.
        -- cbn in Hl'. apply (Hfirst j s'); [lia | exact Hl'].
Qed.

Lemma slice_partial_scores (a b c d : number) (scores : list number) (n : nat) :
  (length scores <= n)%nat ->
  slice (a :: b :: c :: d :: scores) 4 (4 + n) = scores.
Proof.
  intros Hn. unfold slice. cbn [drop].
  replace (4 + n - 4)%nat with n by lia.
  rewrite drop_0. now apply take_ge.
Qed.

Lemma labels_at_nat (E : Extern) (i : nat) : labels_at E (Z.of_nat i) = labels E !! i.
Proof.
  unfold labels_at. destruct (Z.of_nat i <? 0)%Z eqn:H.
  - apply Z.ltb_lt in H. lia.
  - now rewrite Nat2Z.id.
Qed.














End Decoder.

(** ** Properties of the pass *)

Section Pass.

Variables (E : Extern) (session : Session).

Section Loop.

Variables (selected output1 : Tensor) (xRatio yRatio maxSize : number).

Local Abbreviation decoded := (decodeAt E selected xRatio yRatio maxSize).
Local Abbreviation mcall := (maskCall E selected output1 xRatio yRatio maxSize).
Local Abbreviation answer := (maskResult E session selected output1 xRatio yRatio maxSize).
Local Abbreviation run := (loop E session selected output1 xRatio yRatio maxSize).

Lemma iteration_step (idx : nat) (boxes : list (Detection E)) (ov : Tensor) :
  iteration E session selected output1 xRatio yRatio maxSize idx (boxes, ov)
  = ([mcall idx ov],
     match answer idx ov with
     | Some ov' => Ok (boxes ++ [decoded idx], ov')
     | None => Throw MaskFailure
     end).
Proof.
  unfold iteration, maskCall, maskResult, decodeAt, await, bind, ret.
  now destruct (mask_run session _ _ _ _).
Qed.

(** The loop, told by the overlays the mask generator answered: the call
    of index [i] works on entry [i] of [ov :: answers], and its answer is
    entry [i + 1]. *)
Lemma loop_run (n : nat) :
  forall (idx : nat) (boxes : list (Detection E)) (ov : Tensor),
  exists answers : list Tensor,
    (forall (i : nat) (ov' : Tensor),
       answers !! i = Some ov' ->
       exists o, (ov :: answers) !! i = Some o /\ answer (idx + i) o = Some ov')
    /\ ((length answers = n
         /\ exists final,
              last (ov :: answers) = Some final
              /\ run n idx (boxes, ov)
                 = (imap (fun i o => mcall (idx + i) o) (take n (ov :: answers)),
                    Ok (boxes ++ map decoded (seq idx n), final)))
        \/ ((length answers < n)%nat
            /\ (exists o, (ov :: answers) !! length answers = Some o
                          /\ answer (idx + length answers) o = None)
            /\ run n idx (boxes, ov)
               = (imap (fun i o => mcall (idx + i) o) (ov :: answers),
                  Throw MaskFailure))).
Proof.
  induction n as [|n IH]; intros idx boxes ov.
  - exists []. split; [intros i ov' Hi; discriminate Hi|]. left.
    split; [reflexivity|]. exists ov. split; [reflexivity|].
    cbn. now rewrite app_nil_r.
  - cbn [loop]. rewrite iteration_step.
    destruct (answer idx ov) as [ov'|] eqn:Hr.
    + destruct (IH (S idx) (boxes ++ [decoded idx]) ov')
        as (answers & Hans & Hcase).
      exists (ov' :: answers). split.
      * intros [|i] o' Hi.
        -- cbn in Hi. inversion Hi; subst o'. exists ov.
           split; [reflexivity|]. now rewrite Nat.add_0_r.
        -- cbn in Hi. destruct (Hans i o' Hi) as (o & Ho & Hres).
           exists o. split; [exact Ho|]. now rewrite Nat.add_succ_r.
      * assert (Hext : forall l : list Tensor,
                  imap ((fun i o => mcall (idx + i) o) ∘ S) l
                  = imap (fun i o => mcall (S idx + i) o) l).
        { intros l. apply imap_ext. intros i o _. cbn. now rewrite Nat.add_succ_r. }
        destruct Hcase as [(Hlen & final & Hlast & Hrun) | (Hlen & Hfail & Hrun)].
        -- left. split; [cbn; now rewrite Hlen|]. exists final.
           split; [now rewrite last_cons_cons|].
           unfold bind. rewrite Hrun. cbn [take seq map app].
           rewrite imap_cons, Hext, Nat.add_0_r, <- app_assoc. reflexivity.
        -- right. split; [cbn; lia|]. split.
           ++ destruct Hfail as (o & Ho & Hres). exists o. cbn [length].
              split; [exact Ho|]. now rewrite Nat.add_succ_r.
           ++ unfold bind. rewrite Hrun.
              rewrite (imap_cons _ ov), Hext, Nat.add_0_r. reflexivity.
    + exists []. split; [intros i ov' Hi; discriminate Hi|]. right.
      split; [cbn; lia|]. split.
      * exists ov. split; [reflexivity|]. cbn [length]. now rewrite Nat.add_0_r.
      * cbn. now rewrite Nat.add_0_r.
Qed.

(** Every call but the one that failed was answered. *)
Lemma calls_answered (ov : Tensor) (answers : list Tensor) :
  (forall (i : nat) (ov' : Tensor),
     answers !! i = Some ov' ->
     exists o, (ov :: answers) !! i = Some o /\ answer i o = Some ov') ->
  Forall (call_answered session) (imap mcall (take (length answers) (ov :: answers))).
Proof.
  intros Hans. apply Forall_lookup. intros i c Hc.
  apply list_lookup_imap_Some in Hc. destruct Hc as (o & Ho & ->).
  assert (Hi : (i < length answers)%nat).
  { apply lookup_lt_Some in Ho. rewrite length_take in Ho. lia. }
  rewrite lookup_take_lt in Ho by exact Hi.
  destruct (lookup_lt_is_Some_2 answers i Hi) as [ov' Hov'].
  destruct (Hans i ov' Hov') as (o' & Ho' & Hres).
  rewrite Ho in Ho'. inversion Ho'; subst o'.
  unfold maskCall, call_answered. unfold maskResult in Hres. rewrite Hres. now eexists.
Qed.

(** The overlays are the ones of the answered calls and the one of the
    call that failed. *)
Lemma overlays_split (ov o : Tensor) (answers : list Tensor) :
  (ov :: answers) !! length answers = Some o ->
  imap mcall (ov :: answers)
  = imap mcall (take (length answers) (ov :: answers)) ++ [mcall (length answers) o].
Proof.
  intros Ho.
  assert (Hsplit : ov :: answers = take (length answers) (ov :: answers) ++ [o]).
  { rewrite <- (take_S_r _ _ _ Ho). symmetry. apply take_ge. cbn. lia. }
  rewrite Hsplit at 1. rewrite imap_app. f_equal.
  rewrite length_take. cbn [length imap].
  now replace (length answers `min` S (length answers) + 0)%nat
    with (length answers) by lia.
Qed.

End Loop.

Section Detect.

Variables (image : Image E) (topk iouThreshold scoreThreshold : number).
Variables (batch channels modelWidth modelHeight : nat) (more : list nat).

Local Abbreviation inputShape := (batch :: channels :: modelWidth :: modelHeight :: more).
Local Abbreviation bound := (Math_max2 (of_nat modelWidth) (of_nat modelHeight)).
Local Abbreviation pre :=
  (preprocessing E image (of_nat modelWidth) (of_nat modelHeight) default_stride).
Local Abbreviation config :=
  (new_Tensor1 float32
     (Float32Array [of_nat (numClass E); topk; iouThreshold; scoreThreshold])).
Local Abbreviation pass :=
  (detectImage E session image topk iouThreshold scoreThreshold inputShape).

(** The tensor constructor accepts the data of the empty overlay. *)
Lemma overlay_accepted :
  new_Tensor uint8 (Uint8Array (modelHeight * modelWidth * 4))
    [modelHeight; modelWidth; 4%nat]
  = Some (emptyOverlay modelWidth modelHeight).
Proof.
  unfold new_Tensor, Uint8Array, emptyOverlay, Uint8Array.
  destruct (decide _) as [_|Hne]; [reflexivity|].
  exfalso. apply Hne. rewrite length_replicate. cbn [size foldr]. lia.
Qed.

(** [detectImage] on a shape of at least four entries, step by step. *)
Lemma detectImage_steps :
  pass
  = match pre with
    | Throw e => ([], Throw e)
    | Ok (input, xRatio, yRatio) =>
        match new_Tensor float32 input inputShape with
        | None => ([], Throw TensorFailure)
        | Some tensor =>
            match net_run session tensor with
            | None => ([CallNet tensor], Throw NetFailure)
            | Some (output0, output1) =>
                match nms_run session output0 config with
                | None => ([CallNet tensor; CallNms output0 config], Throw NmsFailure)
                | Some selected =>
                    let out := loop E session selected output1 xRatio yRatio bound
                                 (selectedCount selected) 0%nat
                                 ([], emptyOverlay modelWidth modelHeight) in
                    (CallNet tensor :: CallNms output0 config :: fst out, snd out)
                end
            end
        end
    end.
Proof.
  unfold detectImage, required, await, lift, bind, slice_from.
  cbn [drop lookup list_lookup app].
  destruct pre as [[[input xRatio] yRatio]|e]; [|reflexivity].
  destruct (new_Tensor float32 input inputShape) as [tensor|]; [|reflexivity].
  destruct (net_run session tensor) as [[output0 output1]|]; [|reflexivity].
  destruct (nms_run session output0 _) as [selected|]; [|reflexivity].
  rewrite overlay_accepted. cbn zeta.
  now destruct (loop _ _ _ _ _ _ _ _ _ _).
Qed.

Lemma Math_max2_of_nat (a b : nat) :
  Math_max2 (of_nat a) (of_nat b) = of_nat (Nat.max a b).
Proof.
  unfold Math_max2, of_nat, of_Z, lt, Qle_bool, inject_Z. cbn [Qnum Qden].
  rewrite !Z.mul_1_r. destruct (Z.leb_spec (Z.of_nat b) (Z.of_nat a)); cbn [negb].
  - now rewrite Nat.max_l by lia.
  - now rewrite Nat.max_r by lia.
Qed.

(** The rows of a selected tensor of dimensions [[_, rows, width, ...]]. *)
Lemma rows_of_dims (selected : Tensor) (images rows width : nat) (rest : list nat) :
  dims selected = images :: rows :: width :: rest ->
  selectedCount selected = rows
  /\ forall n, row selected n = take width (drop (n * width) (tdata selected)).
Proof.
  intros Hd. unfold selectedCount, row, slice. rewrite Hd. cbn.
  split; [reflexivity|]. intros n. f_equal. lia.
Qed.

Section Answered.

(** The pass once the detector and the selector have answered. *)

Variables (input : list number) (xRatio yRatio : number).
Variables (tensor output0 output1 selected : Tensor).
Hypothesis Hpre : pre = Ok (input, xRatio, yRatio).
Hypothesis Htensor : new_Tensor float32 input inputShape = Some tensor.
Hypothesis Hnet : net_run session tensor = Some (output0, output1).
Hypothesis Hnms : nms_run session output0 config = Some selected.

Local Abbreviation decoded := (decodeAt E selected xRatio yRatio bound).
Local Abbreviation mcall := (maskCall E selected output1 xRatio yRatio bound).
Local Abbreviation answer := (maskResult E session selected output1 xRatio yRatio bound).

Lemma pass_run :
  exists answers : list Tensor,
    let overlays := emptyOverlay modelWidth modelHeight :: answers in
    (forall (i : nat) (ov' : Tensor),
       answers !! i = Some ov' ->
       exists o, overlays !! i = Some o /\ answer i o = Some ov')
    /\ ((length answers = selectedCount selected
         /\ exists final,
              last overlays = Some final
              /\ pass
                 = (CallNet tensor :: CallNms output0 config
                      :: imap mcall (take (selectedCount selected) overlays),
                    Ok (map decoded (seq 0 (selectedCount selected)), final)))
        \/ ((length answers < selectedCount selected)%nat
            /\ (exists o, overlays !! length answers = Some o
                          /\ answer (length answers) o = None)
            /\ pass
               = (CallNet tensor :: CallNms output0 config :: imap mcall overlays,
                  Throw MaskFailure))).
Proof.
  rewrite detectImage_steps, Hpre, Htensor, Hnet, Hnms. cbn zeta.
  destruct (loop_run selected output1 xRatio yRatio bound (selectedCount selected)
              0%nat [] (emptyOverlay modelWidth modelHeight))
    as (answers & Hans & Hcase).
  exists answers. cbn zeta. split; [exact Hans|].
  destruct Hcase as [(Hlen & final & Hlast & Hrun) | (Hlen & Hfail & Hrun)].
  - left. split; [exact Hlen|]. exists final. split; [exact Hlast|].
    now rewrite Hrun.
  - right. split; [exact Hlen|]. split; [exact Hfail|]. now rewrite Hrun.
Qed.

(** The two ways the pass can end once the selector has answered. *)
Lemma pass_fate :
  (exists calls final,
     pass = (CallNet tensor :: CallNms output0 config :: calls,
             Ok (map decoded (seq 0 (selectedCount selected)), final))
     /\ Forall (call_answered session) calls
     /\ length calls = selectedCount selected)
  \/ (exists calls c,
        pass = (CallNet tensor :: CallNms output0 config :: calls ++ [c],
                Throw MaskFailure)
        /\ Forall (call_answered session) calls
        /\ call_failed session c
        /\ exists a b cfg ov, c = CallMask a b cfg ov).
Proof.
  destruct pass_run as (answers & Hans & Hcase). cbn zeta in Hans, Hcase.
  pose proof (calls_answered selected output1 xRatio yRatio bound _ answers Hans)
    as Hall.
  destruct Hcase as [(Hlen & final & _ & Hrun) | (_ & (o & Ho & Hr) & Hrun)].
  - left. rewrite Hlen in Hall. eexists _, final. split; [exact Hrun|].
    split; [exact Hall|]. rewrite length_imap, length_take. cbn [length]. lia.
  - right.
    rewrite (overlays_split selected output1 xRatio yRatio bound _ o answers Ho)
      in Hrun.
    eexists _, _. split; [exact Hrun|]. split; [exact Hall|].
    split; [exact Hr|]. unfold maskCall. now eexists _, _, _, _.
Qed.

End Answered.

(** C6. Decoding preserves the order of the rows.  For a selected tensor of
    dimensions [[_, N, W, ...]], row [n] being the entries [n * W] to
    [n * W + W - 1] of its data: the pass issues, after the detector and
    the selector calls, the mask calls of the rows 0, 1, 2, ... in this
    order, the first on the empty overlay and each next one on the overlay
    the call before it answered.  When all [N] calls are answered the list
    of records has exactly [N] entries, entry [n] is the record decoded
    from row [n], and the overlay is the answer to the last call; when a
    call fails the pass ends there with that failure. *)
Theorem decoding_preserves_order
    (input : list number) (xRatio yRatio : number)
    (tensor output0 output1 selected : Tensor)
    (images N W : nat) (rest : list nat) :
  pre = Ok (input, xRatio, yRatio) ->
  new_Tensor float32 input inputShape = Some tensor ->
  net_run session tensor = Some (output0, output1) ->
  nms_run session output0 config = Some selected ->
  dims selected = images :: N :: W :: rest ->
  let nth_row (n : nat) := take W (drop (n * W) (tdata selected)) in
  let record (n : nat) := decode E (nth_row n) xRatio yRatio bound in
  let mask_call (n : nat) (ov : Tensor) :=
    CallMask (maskInput E (nth_row n) bound) output1
             (maskConfig E (record n) bound) ov in
  let answer (n : nat) (ov : Tensor) :=
    mask_run session (maskInput E (nth_row n) bound) output1
             (maskConfig E (record n) bound) ov in
  exists answers : list Tensor,
    let overlays := emptyOverlay modelWidth modelHeight :: answers in
    (forall (n : nat) (ov' : Tensor),
       answers !! n = Some ov' ->
       exists ov, overlays !! n = Some ov /\ answer n ov = Some ov')
    /\ ((length answers = N
         /\ exists boxes final,
              pass = (CallNet tensor :: CallNms output0 config
                        :: imap mask_call (take N overlays),
                      Ok (boxes, final))
              /\ last overlays = Some final
              /\ length boxes = N
              /\ forall n, (n < N)%nat -> boxes !! n = Some (record n))
        \/ ((length answers < N)%nat
            /\ (exists ov, overlays !! length answers = Some ov
                           /\ answer (length answers) ov = None)
            /\ pass = (CallNet tensor :: CallNms output0 config
                         :: imap mask_call overlays,
                       Throw MaskFailure))).
Proof.
  intros Hpre Htensor Hnet Hnms Hdims nth_row record mask_call answer.
  destruct (rows_of_dims selected images N W rest Hdims) as (Hcount & Hrow).
  destruct (pass_run input xRatio yRatio tensor output0 output1 selected
              Hpre Htensor Hnet Hnms) as (answers & Hans & Hcase).
  cbn zeta in Hans, Hcase. rewrite Hcount in Hcase.
  assert (Hcall : forall n ov,
            maskCall E selected output1 xRatio yRatio bound n ov = mask_call n ov).
  { intros n ov. unfold maskCall, decodeAt, mask_call, record, nth_row.
    now rewrite Hrow. }
  assert (Hres : forall n ov,
            maskResult E session selected output1 xRatio yRatio bound n ov
            = answer n ov).
  { intros n ov. unfold maskResult, decodeAt, answer, record, nth_row.
    now rewrite Hrow. }
  assert (Himap : forall l, imap (maskCall E selected output1 xRatio yRatio bound) l
                            = imap mask_call l).
  { intros l. apply imap_ext. intros i o _. apply Hcall. }
  exists answers. cbn zeta. split.
  - intros n ov' Hn. destruct (Hans n ov' Hn) as (o & Ho & Hr).
    exists o. split; [exact Ho|]. now rewrite <- Hres.
  - destruct Hcase as [(Hlen & final & Hlast & Hrun) | (Hlen & Hfail & Hrun)].
    + left. split; [exact Hlen|].
      exists (map (decodeAt E selected xRatio yRatio bound) (seq 0 N)), final.
      split; [now rewrite Hrun, Himap|]. split; [exact Hlast|]. split.
      * now rewrite length_map, length_seq.
      * intros n Hn. rewrite list_lookup_fmap, lookup_seq_lt by exact Hn.
        cbn. unfold decodeAt, record, nth_row. now rewrite Hrow.
    + right. split; [exact Hlen|]. split.
      * destruct Hfail as (o & Ho & Hr). exists o. split; [exact Ho|].
        now rewrite <- Hres.
      * now rewrite Hrun, Himap.
Qed.

(** C4, as the code has it.  Both clips of every decoded record use one
    bound, and that bound is [Math.max(modelWidth, modelHeight)], the
    larger of the entries 2 and 3 of [inputShape]: the size of the model
    input, whatever the image and the square it was padded to. *)
Theorem clip_bound_is_model_input
    (calls : list call) (boxes : list (Detection E)) (ov : Tensor) :
  pass = (calls, Ok (boxes, ov)) ->
  bound = of_nat (Nat.max modelWidth modelHeight)
  /\ exists input xRatio yRatio tensor output0 output1 selected,
       pre = Ok (input, xRatio, yRatio)
       /\ new_Tensor float32 input inputShape = Some tensor
       /\ net_run session tensor = Some (output0, output1)
       /\ nms_run session output0 config = Some selected
       /\ length boxes = selectedCount selected
       /\ forall (n : nat) (d : Detection E),
            boxes !! n = Some d ->
            let box := slice (row selected n) 0 4 in
            let b := overflowBoxes
                       (mkBox (sub (elem box 0) (mul (Fin (1 # 2)) (elem box 2)))
                              (sub (elem box 1) (mul (Fin (1 # 2)) (elem box 3)))
                              (elem box 2) (elem box 3))
                       bound in
            bounding d =
              overflowBoxes
                (mkBox (Math_floor (fmul (b0 b) xRatio)) (Math_floor (fmul (b1 b) yRatio))
                       (Math_floor (fmul (b2 b) xRatio)) (Math_floor (fmul (b3 b) yRatio)))
                bound.
Proof.
  intros Hrun. split; [apply Math_max2_of_nat|].
  pose proof Hrun as Hsteps. rewrite detectImage_steps in Hsteps.
  destruct pre as [[[input xRatio] yRatio]|e] eqn:Hpre; [|discriminate Hsteps].
  destruct (new_Tensor float32 input inputShape) as [tensor|] eqn:Htensor;
    [|discriminate Hsteps].
  destruct (net_run session tensor) as [[output0 output1]|] eqn:Hnet;
    [|discriminate Hsteps].
  destruct (nms_run session output0 config) as [selected|] eqn:Hnms;
    [|discriminate Hsteps].
  clear Hsteps.
  exists input, xRatio, yRatio, tensor, output0, output1, selected.
  do 4 (split; [reflexivity || assumption|]).
  destruct (pass_run input xRatio yRatio tensor output0 output1 selected
              Hpre Htensor Hnet Hnms) as (answers & _ & Hcase).
  destruct Hcase as [(_ & final & _ & Hrun') | (_ & _ & Hrun')];
    rewrite Hrun in Hrun'; [|discriminate Hrun'].
  inversion Hrun'; subst. split.
  - now rewrite length_map, length_seq.
  - intros n d Hd. rewrite list_lookup_fmap in Hd.
    destruct (seq 0 (selectedCount selected) !! n) as [k|] eqn:Hk; [|discriminate Hd].
    apply lookup_seq in Hk. destruct Hk as [-> _]. cbn in Hd.
    inversion Hd; subst d. reflexivity.
Qed.

(** C8, as the code has it.  [detectImage] checks none of [topk],
    [iouThreshold] and [scoreThreshold].  Whenever the preprocessing
    returns and the tensor constructor accepts the blob for [inputShape],
    then for all values of the three numbers the detector is called and,
    once it has answered, the selector is called with the configuration
    [[numClass, topk, iouThreshold, scoreThreshold]] as a [Float32Array]
    holds it; the pass then fails only by a call that failed.  The batch
    entry is not checked by [detectImage] either, but the tensor
    constructor enforces it: with three channels and the blob of
    [3 * modelWidth * modelHeight] entries that [blobFromImage] produces,
    a shape [[batch, 3, modelWidth, modelHeight]] with [batch] other than 1
    is refused before any call. *)
Theorem config_is_not_validated (input : list number) (xRatio yRatio : number) :
  pre = Ok (input, xRatio, yRatio) ->
  (forall tensor : Tensor,
     new_Tensor float32 input inputShape = Some tensor ->
     tdata config = [fround (of_nat (numClass E)); fround topk;
                     fround iouThreshold; fround scoreThreshold]
     /\ (exists calls, fst pass = CallNet tensor :: calls)
     /\ (forall output0 output1,
           net_run session tensor = Some (output0, output1) ->
           exists calls, fst pass = CallNet tensor :: CallNms output0 config :: calls)
     /\ (forall e, snd pass = Throw e ->
           exists calls c, fst pass = calls ++ [c] /\ call_failed session c))
  /\ (length input = (3 * modelWidth * modelHeight)%nat ->
      (0 < modelWidth)%nat -> (0 < modelHeight)%nat ->
      channels = 3%nat -> more = [] -> batch <> 1%nat ->
      pass = ([], Throw TensorFailure)).
Proof.
  intros Hpre. split.
  - intros tensor Htensor. split; [reflexivity|].
    rewrite detectImage_steps, Hpre, Htensor.
    destruct (net_run session tensor) as [[output0 output1]|] eqn:Hnet.
    + destruct (nms_run session output0 config) as [selected|] eqn:Hnms.
      * destruct (pass_fate input xRatio yRatio tensor output0 output1 selected
                    Hpre Htensor Hnet Hnms)
          as [(calls & final & Hrun & _) | (calls & c & Hrun & _ & Hfail & _)];
          rewrite detectImage_steps, Hpre, Htensor, Hnet, Hnms in Hrun;
          cbn zeta in *; rewrite Hrun; cbn [fst snd].
        -- split; [eauto|]. split.
           ++ intros o0 o1 Ho. inversion Ho; subst. eauto.
           ++ intros e He. discriminate He.
        -- split; [eauto|]. split.
           ++ intros o0 o1 Ho. inversion Ho; subst. eauto.
           ++ intros e He.
              exists (CallNet tensor :: CallNms output0 config :: calls), c.
              split; [reflexivity | exact Hfail].
      * cbn [fst snd]. split; [eauto|]. split.
        -- intros o0 o1 Ho. inversion Ho; subst. eauto.
        -- intros e He. exists [CallNet tensor], (CallNms output0 config).
           split; [reflexivity | exact Hnms].
    + cbn [fst snd]. split; [eauto|]. split.
      * intros o0 o1 Ho. discriminate Ho.
      * intros e He. exists [], (CallNet tensor). split; [reflexivity | exact Hnet].
  - intros Hlen Hw Hh Hch Hmore Hbatch.
    rewrite detectImage_steps, Hpre. unfold new_Tensor.
    destruct (decide _) as [Heq|_]; [|reflexivity].
    exfalso. rewrite Hlen, Hch, Hmore in Heq. cbn [size foldr] in Heq.
    apply Hbatch. nia.
Qed.

(** C9, as the code has it.  No row is refused for its width.  For a
    selected tensor of dimensions [[_, N, W, ...]], whatever [W]: when
    every call the pass issues is answered, the pass returns [N] records,
    record [n] decoded from the entries [n * W] to [n * W + W - 1] of the
    data.  A row that lacks some of its scores is decoded from the scores
    it has: the probability is their maximum and the label that of the
    first index attaining it. *)
Theorem short_rows_are_decoded
    (input : list number) (xRatio yRatio : number)
    (tensor output0 output1 selected : Tensor)
    (images N W : nat) (rest : list nat) :
  pre = Ok (input, xRatio, yRatio) ->
  new_Tensor float32 input inputShape = Some tensor ->
  net_run session tensor = Some (output0, output1) ->
  nms_run session output0 config = Some selected ->
  dims selected = images :: N :: W :: rest ->
  Forall (call_answered session) (fst pass) ->
  (exists calls boxes ov,
     pass = (calls, Ok (boxes, ov))
     /\ length boxes = N
     /\ forall n, (n < N)%nat ->
          boxes !! n = Some (decode E (take W (drop (n * W) (tdata selected)))
                                    xRatio yRatio bound))
  /\ (forall (cx cy w h : Q) (scores : list Q) (xr yr m : number),
        (0 < length scores < numClass E)%nat ->
        let d := decode E (Fin cx :: Fin cy :: Fin w :: Fin h :: map Fin scores)
                        xr yr m in
        exists (p : Q) (i : nat) (s : Q),
          probability d = Fin p
          /\ In p scores /\ Forall (fun s' => (s' <= p)%Q) scores
          /\ scores !! i = Some s /\ (s == p)%Q
          /\ (forall (j : nat) (s' : Q),
                (j < i)%nat -> scores !! j = Some s' -> (s' < p)%Q)
          /\ label d = labels E !! i).
Proof.
  intros Hpre Htensor Hnet Hnms Hdims Hall. split.
  - destruct (rows_of_dims selected images N W rest Hdims) as (Hcount & Hrow).
    destruct (pass_fate input xRatio yRatio tensor output0 output1 selected
                Hpre Htensor Hnet Hnms)
      as [(calls & final & Hrun & _) | (calls & c & Hrun & _ & Hfail & _)].
    + eexists _, _, final. split; [exact Hrun|]. rewrite Hcount. split.
      * now rewrite length_map, length_seq.
      * intros n Hn. rewrite list_lookup_fmap, lookup_seq_lt by exact Hn.
        cbn. unfold decodeAt. now rewrite Hrow.
    + exfalso. rewrite Hrun in Hall. cbn [fst] in Hall.
      inversion Hall as [|? ? _ Hall1]; subst.
      inversion Hall1 as [|? ? _ Hall2]; subst.
      apply Forall_app in Hall2. destruct Hall2 as [_ Hc].
      inversion Hc as [|? ? Hans _]; subst.
      destruct c as [t|a b|a b cfg o]; cbn in Hfail, Hans;
        rewrite Hfail in Hans; now destruct Hans.
  - intros cx cy w h scores xr yr m [Hpos Hlt] d. subst d.
    unfold decode. cbn [probability label].
    rewrite slice_partial_scores by (rewrite length_map; lia).
    destruct scores as [|x0 l]; [cbn in Hpos; lia|].
    destruct (Math_max_fin x0 l) as (p & -> & Hin & Hall').
    destruct (indexOf_from_first (x0 :: l) p 0) as (i & s & Hi & Hl & Hs & Hfirst).
    { exists p. split; [exact Hin | reflexivity]. }
    unfold indexOf. rewrite Hi, Z.add_0_l, labels_at_nat.
    exists p, i, s. do 5 (split; [assumption || reflexivity|]).
    split; [|reflexivity].
    intros j s' Hj Hl'. pose proof (Forall_lookup_1 _ _ _ _ Hall' Hl') as Hle.
    cbn beta in Hle. pose proof (Hfirst j s' Hj Hl') as Hne.
    apply Qle_lteq in Hle. destruct Hle; [assumption | contradiction].
Qed.

End Detect.

End Pass.

(** ** The pass on the small instance *)

Lemma demo_preprocessing_square :
  preprocessing demoExtern (640, 640)%nat (of_nat 640) (of_nat 640) default_stride
  = Ok (demoBlob 640 640, Fin 1, Fin 1).
Proof. cbv -[demoBlob]. reflexivity. Qed.

Lemma demo_preprocessing_wide :
  preprocessing demoExtern (1280, 960)%nat (of_nat 640) (of_nat 640) default_stride
  = Ok (demoBlob 640 640, Fin 1, Fin fourThirds).
Proof. cbv -[demoBlob]. reflexivity. Qed.


Lemma demo_tensor_accepted :
  new_Tensor float32 (demoBlob 640 640) modelInputShape = Some demoTensor.
Proof.
  unfold new_Tensor. destruct (decide _) as [_|Hne]; [reflexivity|].
  exfalso. apply Hne. unfold demoBlob. rewrite length_replicate.
  unfold modelInputShape. cbn [size foldr].
  now rewrite Nat.mul_1_r, Nat.mul_1_l, Nat.mul_assoc.
Qed.

(** The pass of the instance, once the preprocessing has returned. *)
Lemma demo_pass (selected : Tensor) (image : nat * nat)
    (topk iouThreshold scoreThreshold xRatio yRatio : number) :
  preprocessing demoExtern image (of_nat 640) (of_nat 640) default_stride
    = Ok (demoBlob 640 640, xRatio, yRatio) ->
  detectImage demoExtern (demoSession selected) image topk iouThreshold scoreThreshold
    modelInputShape
  = let config := new_Tensor1 float32
                    (Float32Array [of_nat 2; topk; iouThreshold; scoreThreshold]) in
    let out := loop demoExtern (demoSession selected) selected demoTensor xRatio yRatio
                 (of_Z 640) (selectedCount selected) 0%nat
                 ([], emptyOverlay 640 640) in
    (CallNet demoTensor :: CallNms demoTensor config :: fst out, snd out).
Proof.
  intros Hpre. unfold modelInputShape.
  rewrite (detectImage_steps demoExtern (demoSession selected) image topk iouThreshold
             scoreThreshold 1 3 640 640 []).
  rewrite Hpre. fold modelInputShape. rewrite demo_tensor_accepted. reflexivity.
Qed.

Section Instances.

Local Open Scope Q_scope.


(** C5, on the code.  A box that starts beyond the bound comes back with a
    negative extent: [overflowBoxes([75, 805, 50, 42], 640)] is
    [[75, 805, 50, -165]].  The pass produces this box for a 1280 x 960
    image, where [yRatio = 1280 / 960], from the row
    [[100, 620, 50, 32, 0.9, 0.1]]. *)
Theorem clipped_extent_can_be_negative :
  overflowBoxes (finBox 75 805 50 42) (Fin 640) = finBox 75 805 50 (-165)
  /\ lt (b3 (overflowBoxes (finBox 75 805 50 42) (Fin 640))) (of_Z 0) = true
  /\ exists calls d ov,
       detectImage demoExtern (demoSession lowSelected) (1280, 960)%nat
         appTopk appIouThreshold appScoreThreshold modelInputShape
       = (calls, Ok ([d], ov))
       /\ bounding d = finBox 75 805 50 (-165)
       /\ lt (b3 (bounding d)) (of_Z 0) = true.
Proof.
  split; [reflexivity|]. split; [reflexivity|].
  eexists _, _, (emptyOverlay 640 640). split.
  - run_demo demo_pass demo_preprocessing_wide.
  - split; reflexivity.
Qed.

(** A 1280 x 960 image is padded to a square of side 1280, yet with the
    model input 640 x 640 a box 1000 wide is cut to 640: the bound of the
    clips is 640.  Against 1280 the same row would keep its width. *)
Lemma clip_bound_is_padded_side_counterexample :
  paddedSide demoExtern (1280, 960)%nat default_stride = of_Z 1280
  /\ exists calls d ov,
       detectImage demoExtern (demoSession wideSelected) (1280, 960)%nat
         appTopk appIouThreshold appScoreThreshold modelInputShape
       = (calls, Ok ([d], ov))
       /\ bounding d = finBox 0 101 640 66
       /\ bounding (decode demoExtern (row wideSelected 0)
                      (Fin 1) (Fin fourThirds) (of_Z 1280))
          = finBox 0 101 1000 66.
Proof.
  split; [reflexivity|].
  eexists _, _, (emptyOverlay 640 640). split.
  - run_demo demo_pass demo_preprocessing_wide.
  - split; reflexivity.
Qed.

(** The same pass: its bound is [max 640 640]. *)
Lemma clip_bound_is_model_input_witness :
  exists calls boxes ov,
    detectImage demoExtern (demoSession wideSelected) (1280, 960)%nat
      appTopk appIouThreshold appScoreThreshold modelInputShape
    = (calls, Ok (boxes, ov))
    /\ Math_max2 (of_nat 640) (of_nat 640) = of_nat (Nat.max 640 640)
    /\ length boxes = 1%nat.
Proof.
  eexists _, _, (emptyOverlay 640 640).
  match goal with
  | |- ?run /\ _ => assert (Hrun : run) by run_demo demo_pass demo_preprocessing_wide
  end.
  split; [exact Hrun|].
  destruct (clip_bound_is_model_input demoExtern (demoSession wideSelected)
              (1280, 960)%nat appTopk appIouThreshold appScoreThreshold
              1%nat 3%nat 640%nat 640%nat [] _ _ _ Hrun)
    as (Hb & _).
  split; [exact Hb|]. reflexivity.
Defined.

(** With [topk = 0], [iouThreshold = 2] and [scoreThreshold = -1] the pass
    calls the detector and the selector, hands the three numbers to the
    selector as they are, and returns a record. *)
Lemma config_is_validated_counterexample :
  exists cfg calls boxes ov,
    detectImage demoExtern (demoSession demoSelected) (640, 640)%nat
      (of_Z 0) (of_Z 2) (of_Z (-1)) modelInputShape
    = (CallNet demoTensor :: CallNms demoTensor cfg :: calls, Ok (boxes, ov))
    /\ tdata cfg = [of_Z 2; of_Z 0; of_Z 2; of_Z (-1)]
    /\ length boxes = 1%nat.
Proof.
  eexists _, _, _, (emptyOverlay 640 640). split.
  - run_demo demo_pass demo_preprocessing_square.
  - split; reflexivity.
Qed.

(** The same three numbers through the theorem, and the shape
    [[2, 3, 640, 640]], which the tensor constructor refuses. *)
Lemma config_is_not_validated_witness :
  preprocessing demoExtern (640, 640)%nat (of_nat 640) (of_nat 640) default_stride
    = Ok (demoBlob 640 640, Fin 1, Fin 1)
  /\ (exists calls,
        fst (detectImage demoExtern (demoSession demoSelected) (640, 640)%nat
               (of_Z 0) (of_Z 2) (of_Z (-1)) modelInputShape)
        = CallNet demoTensor :: calls)
  /\ detectImage demoExtern (demoSession demoSelected) (640, 640)%nat
       appTopk appIouThreshold appScoreThreshold [2; 3; 640; 640]%nat
     = ([], Throw TensorFailure).
Proof.
  split; [exact demo_preprocessing_square|]. split.
  - destruct (proj1 (config_is_not_validated demoExtern (demoSession demoSelected)
                       (640, 640)%nat (of_Z 0) (of_Z 2) (of_Z (-1))
                       1%nat 3%nat 640%nat 640%nat [] _ _ _
                       demo_preprocessing_square)
                demoTensor demo_tensor_accepted)
      as (_ & Hcalls & _).
    exact Hcalls.
  - apply (proj2 (config_is_not_validated demoExtern (demoSession demoSelected)
                    (640, 640)%nat appTopk appIouThreshold appScoreThreshold
                    2%nat 3%nat 640%nat 640%nat [] _ _ _
                    demo_preprocessing_square)).
    + unfold demoBlob. apply length_replicate.
    + lia.
    + lia.
    + reflexivity.
    + reflexivity.
    + discriminate.
Defined.

(** A selected tensor whose only row has five entries, with two classes:
    the pass raises nothing and returns a record for the row, decoded from
    the one score it has. *)
Lemma short_row_is_refused_counterexample :
  (length (row shortSelected 0) < 4 + numClass demoExtern)%nat
  /\ exists calls d ov,
       detectImage demoExtern (demoSession shortSelected) (640, 640)%nat
         appTopk appIouThreshold appScoreThreshold modelInputShape
       = (calls, Ok ([d], ov))
       /\ label d = labels demoExtern !! 0%nat
       /\ probability d = Fin (9 # 10)
       /\ bounding d = finBox 75 75 50 50.
Proof.
  split; [cbn; lia|].
  eexists _, _, (emptyOverlay 640 640). split.
  - run_demo demo_pass demo_preprocessing_square.
  - repeat split; reflexivity.
Qed.

(** The same pass, through the theorem. *)
Lemma short_rows_are_decoded_witness :
  exists calls boxes ov,
    detectImage demoExtern (demoSession shortSelected) (640, 640)%nat
      appTopk appIouThreshold appScoreThreshold modelInputShape
    = (calls, Ok (boxes, ov))
    /\ length boxes = 1%nat
    /\ boxes !! 0%nat
       = Some (decode demoExtern [Fin 100; Fin 100; Fin 50; Fin 50; Fin (9 # 10)]
                      (Fin 1) (Fin 1) (Math_max2 (of_nat 640) (of_nat 640))).
Proof.
  assert (Hrun : exists calls d,
            detectImage demoExtern (demoSession shortSelected) (640, 640)%nat
              appTopk appIouThreshold appScoreThreshold modelInputShape
            = (CallNet demoTensor :: calls, Ok ([d], emptyOverlay 640 640))
            /\ Forall (call_answered (demoSession shortSelected)) calls).
  { eexists _, _. split; [run_demo demo_pass demo_preprocessing_square|].
    repeat constructor; eexists; reflexivity. }
  destruct Hrun as (calls0 & d0 & Hrun & Hall).
  destruct (short_rows_are_decoded demoExtern (demoSession shortSelected)
              (640, 640)%nat appTopk appIouThreshold appScoreThreshold
              1%nat 3%nat 640%nat 640%nat [] _ _ _ demoTensor demoTensor demoTensor
              shortSelected 1%nat 1%nat 5%nat []
              demo_preprocessing_square demo_tensor_accepted eq_refl eq_refl eq_refl)
    as ((calls & boxes & ov & Hpass & Hlen & Hrows) & _).
  { change (Forall (call_answered (demoSession shortSelected))
              (fst (detectImage demoExtern (demoSession shortSelected) (640, 640)%nat
                      appTopk appIouThreshold appScoreThreshold modelInputShape))).
    rewrite Hrun. constructor; [eexists; reflexivity | exact Hall]. }
  exists calls, boxes, ov. split; [exact Hpass|]. split; [exact Hlen|].
  exact (Hrows 0%nat ltac:(lia)).
Defined.

(** A selected tensor of two rows: two records, the second one decoded
    from the second row. *)
Lemma decoding_preserves_order_witness :
  exists calls boxes final,
    detectImage demoExtern (demoSession twoSelected) (640, 640)%nat
      appTopk appIouThreshold appScoreThreshold modelInputShape
    = (calls, Ok (boxes, final))
    /\ length boxes = 2%nat
    /\ boxes !! 1%nat
       = Some (decode demoExtern
                 [Fin 200; Fin 300; Fin 40; Fin 60; Fin (1 # 5); Fin (7 # 10)]
                 (Fin 1) (Fin 1) (Math_max2 (of_nat 640) (of_nat 640)))
    /\ length calls = 4%nat.
Proof.
  destruct (decoding_preserves_order demoExtern (demoSession twoSelected)
              (640, 640)%nat appTopk appIouThreshold appScoreThreshold
              1%nat 3%nat 640%nat 640%nat [] _ _ _ demoTensor demoTensor demoTensor
              twoSelected 1%nat 2%nat 6%nat []
              demo_preprocessing_square demo_tensor_accepted eq_refl eq_refl eq_refl)
    as (answers & _ & [(Hlen & boxes & final & Hpass & _ & Hboxes & Hrows)
                      | (_ & (ov & _ & Hfail) & _)]).
  - eexists _, boxes, final. split; [exact Hpass|]. split; [exact Hboxes|].
    split; [exact (Hrows 1%nat ltac:(lia))|].
    cbn [length]. rewrite length_imap, length_take. cbn [length]. rewrite Hlen.
    reflexivity.
  - discriminate Hfail.
Defined.



End Instances.

(** ** Further properties of the geometry utilities *)

Section Clipping.

Local Open Scope Q_scope.

Lemma clampStart_fin_ge (x : Q) :
  exists x', clampStart (Fin x) = Fin x' /\ 0 <= x' /\ x <= x'
             /\ (0 <= x -> x' = x) /\ (x < 0 -> x' = 0).
Proof.
  unfold clampStart, ge, of_Z. destruct (le (Fin (inject_Z 0)) (Fin x)) eqn:Hx.
  - exists x. apply le_Fin in Hx. change (inject_Z 0) with 0 in Hx.
    repeat split; auto; try lra; intros; lra.
  - exists 0. apply le_Fin_false in Hx. change (inject_Z 0) with 0 in Hx.
    repeat split; auto; try lra; intros; lra.
Qed.

Lemma cutExtent_fin_le (x w m : Q) :
  exists w', cutExtent (Fin x) (Fin w) (Fin m) = Fin w'
             /\ w' <= w /\ x + w' <= m
             /\ (x + w <= m -> w' = w) /\ (m < x + w -> w' = m - x).
Proof.
  unfold cutExtent. simpl add. destruct (le (Fin (x + w)) (Fin m)) eqn:Hw.
  - exists w. apply le_Fin in Hw. repeat split; auto; try lra; intros; lra.
  - exists (m - x). apply le_Fin_false in Hw.
    repeat split; auto; try lra; intros; lra.
Qed.

(** X1. Clipping only ever shrinks a box: on finite coordinates
    [overflowBoxes] never lowers the start of an axis ([x <= x'],
    [y <= y']) and never enlarges an extent ([w' <= w], [h' <= h]), and a
    box that already lies in the frame is returned as it is. *)
Theorem overflowBoxes_shrinks (x y w h m : Q) :
  exists x' y' w' h',
    overflowBoxes (finBox x y w h) (Fin m) = finBox x' y' w' h'
    /\ x <= x' /\ y <= y' /\ w' <= w /\ h' <= h
    /\ (0 <= x -> 0 <= y -> x + w <= m -> y + h <= m ->
        x' = x /\ y' = y /\ w' = w /\ h' = h).
Proof.
  rewrite overflowBoxes_axes. cbn [finBox b0 b1 b2 b3].
  destruct (clampStart_fin_ge x) as (x' & -> & _ & Hx & Ex & _).
  destruct (clampStart_fin_ge y) as (y' & -> & _ & Hy & Ey & _).
  destruct (cutExtent_fin_le x' w m) as (w' & -> & Hw & _ & Ew & _).
  destruct (cutExtent_fin_le y' h m) as (h' & -> & Hh & _ & Eh & _).
  exists x', y', w', h'. do 5 (split; [assumption || reflexivity|]).
  intros Px Py Pw Ph. rewrite (Ex Px) in Ew. rewrite (Ey Py) in Eh.
  rewrite (Ex Px), (Ey Py), (Ew Pw), (Eh Ph). auto.
Qed.

(** X2. When the extents given are not negative and the box starts at or
    before the bound on both axes, the clipped box has no negative
    coordinate and lies in the frame: [0 <= x' <= x' + w' <= m] and the
    same for [y'], [h']. *)
Theorem overflowBoxes_extent_nonneg (x y w h m : Q) :
  0 <= w -> 0 <= h -> x <= m -> y <= m -> 0 <= m ->
  exists x' y' w' h',
    overflowBoxes (finBox x y w h) (Fin m) = finBox x' y' w' h'
    /\ 0 <= x' /\ 0 <= y' /\ 0 <= w' /\ 0 <= h'
    /\ x' + w' <= m /\ y' + h' <= m.
Proof.
  intros Hw0 Hh0 Hxm Hym Hm. rewrite overflowBoxes_axes. cbn [finBox b0 b1 b2 b3].
  destruct (clampStart_fin_ge x) as (x' & -> & Hx & _ & Ex & Ex0).
  destruct (clampStart_fin_ge y) as (y' & -> & Hy & _ & Ey & Ey0).
  assert (x' <= m) as Hx'.
  { destruct (Qlt_le_dec x 0) as [H|H]; [rewrite (Ex0 H) | rewrite (Ex H)]; lra. }
  assert (y' <= m) as Hy'.
  { destruct (Qlt_le_dec y 0) as [H|H]; [rewrite (Ey0 H) | rewrite (Ey H)]; lra. }
  destruct (cutExtent_fin_le x' w m) as (w' & -> & _ & Hw & Ew & Ew').
  destruct (cutExtent_fin_le y' h m) as (h' & -> & _ & Hh & Eh & Eh').
  exists x', y', w', h'. repeat split; auto.
  - destruct (Qlt_le_dec m (x' + w)) as [H|H]; [rewrite (Ew' H) | rewrite (Ew H)]; lra.
  - destruct (Qlt_le_dec m (y' + h)) as [H|H]; [rewrite (Eh' H) | rewrite (Eh H)]; lra.
Qed.

(** The box [[600, -5, 40, 10]] against 640. *)
Lemma overflowBoxes_extent_nonneg_witness :
  0 <= 40 /\ 0 <= 10 /\ 600 <= 640 /\ -5 <= 640 /\ 0 <= 640
  /\ exists x' y' w' h',
       overflowBoxes (finBox 600 (-5) 40 10) (Fin 640) = finBox x' y' w' h'
       /\ 0 <= x' /\ 0 <= y' /\ 0 <= w' /\ 0 <= h'
       /\ x' + w' <= 640 /\ y' + h' <= 640.
Proof.
  repeat (split; [lra|]).
  apply (overflowBoxes_extent_nonneg 600 (-5) 40 10 640); lra.
Defined.

Lemma clampStart_not_NaN (x : number) : clampStart x <> NaN.
Proof.
  unfold clampStart. destruct (ge x (of_Z 0)) eqn:Hx; [|discriminate].
  destruct x; discriminate.
Qed.

Lemma cutExtent_not_NaN (x w : number) (m : Q) :
  x <> NaN -> cutExtent x w (Fin m) <> NaN.
Proof.
  intros Hx. unfold cutExtent. destruct (le (add x w) (Fin m)) eqn:Hw.
  - destruct w, x; discriminate.
  - destruct x; discriminate || contradiction.
Qed.

(** X3. Against a finite bound [overflowBoxes] returns no NaN, whatever the
    box holds: a NaN or missing start becomes 0 and a NaN or missing extent
    becomes the room left up to the bound, so a box of four NaN comes back
    as the whole frame. *)
Theorem overflowBoxes_no_NaN (b : Box) (m : Q) :
  b0 (overflowBoxes b (Fin m)) <> NaN
  /\ b1 (overflowBoxes b (Fin m)) <> NaN
  /\ b2 (overflowBoxes b (Fin m)) <> NaN
  /\ b3 (overflowBoxes b (Fin m)) <> NaN
  /\ overflowBoxes (mkBox NaN NaN NaN NaN) (Fin m) = finBox 0 0 (m - 0) (m - 0).
Proof.
  rewrite overflowBoxes_axes. cbn [b0 b1 b2 b3].
  repeat split.
  - apply clampStart_not_NaN.
  - apply clampStart_not_NaN.
  - apply cutExtent_not_NaN, clampStart_not_NaN.
  - apply cutExtent_not_NaN, clampStart_not_NaN.
Qed.

End Clipping.

(** ** Further properties of the stride rounding *)

Section Rounding.

Local Open Scope Z_scope.

Lemma roundStrideZ_multiple (s d : Z) :
  0 < s -> (s | d) -> roundStrideZ s d = d.
Proof.
  intros Hs Hd. unfold roundStrideZ.
  assert (Z.rem d s = 0) as -> by (apply Z.rem_divide; [lia | exact Hd]).
  reflexivity.
Qed.

Lemma roundStrideZ_nonneg (s d : Z) :
  0 < s -> 0 <= d -> roundStrideZ s d = s * ((2 * d + s) / (2 * s)).
Proof.
  intros Hs Hd. unfold roundStrideZ. rewrite Z.rem_mod_nonneg by lia.
  pose proof (Z.div_mod d s ltac:(lia)) as Hdm.
  pose proof (Z.mod_pos_bound d s Hs) as Hm.
  assert (Hq : forall k, 0 <= 2 * (d mod s) + s - 2 * s * k < 2 * s ->
                         (2 * d + s) / (2 * s) = d / s + k).
  { intros k Hk. symmetry. apply (Z.div_unique _ _ _ (2 * (d mod s) + s - 2 * s * k)).
    - left. exact Hk.
    - nia. }
  destruct (d mod s =? 0) eqn:H0.
  - apply Z.eqb_eq in H0. rewrite (Hq 0) by lia. nia.
  - apply Z.eqb_neq in H0. destruct (s <=? 2 * (d mod s)) eqn:H1.
    + apply Z.leb_le in H1. rewrite (Hq 1) by lia. nia.
    + apply Z.leb_gt in H1. rewrite (Hq 0) by lia. nia.
Qed.

Lemma roundStrideZ_neg (s d : Z) :
  0 < s -> d < 0 -> roundStrideZ s d = s * (d / s).
Proof.
  intros Hs Hd. unfold roundStrideZ.
  pose proof (Z.rem_nonpos d s ltac:(lia) ltac:(lia)) as Hr.
  pose proof (Z.div_mod d s ltac:(lia)) as Hdm.
  destruct (Z.rem d s =? 0) eqn:H0.
  - apply Z.eqb_eq in H0.
    assert (d mod s = 0) as Hm.
    { apply Z.mod_divide; [lia|]. apply Z.rem_divide; [lia | exact H0]. }
    lia.
  - destruct (s <=? 2 * Z.rem d s) eqn:H1; [apply Z.leb_le in H1; lia|]. lia.
Qed.

Lemma roundStrideZ_mono (s d1 d2 : Z) :
  0 < s -> d1 <= d2 -> roundStrideZ s d1 <= roundStrideZ s d2.
Proof.
  intros Hs Hd. destruct (Z.lt_ge_cases d1 0) as [H1|H1];
    destruct (Z.lt_ge_cases d2 0) as [H2|H2]; try lia.
  - rewrite !roundStrideZ_neg by lia.
    apply Z.mul_le_mono_nonneg_l; [lia|]. apply Z.div_le_mono; lia.
  - rewrite (roundStrideZ_neg s d1), (roundStrideZ_nonneg s d2) by lia.
    pose proof (Z.div_pos (2 * d2 + s) (2 * s) ltac:(lia) ltac:(lia)).
    pose proof (Z.div_lt_upper_bound d1 s 0 Hs ltac:(lia)). nia.
  - rewrite !roundStrideZ_nonneg by lia.
    apply Z.mul_le_mono_nonneg_l; [lia|]. apply Z.div_le_mono; lia.
Qed.

(** X4. [divStride] leaves a size that is already a multiple of the stride
    as it is, and rounding twice is rounding once: applied to its own
    result it returns that result (integers, [s > 0]). *)
Theorem divStride_idempotent (s width height : Z) :
  0 < s ->
  exists w' h',
    divStride (of_Z s) (of_Z width) (of_Z height) = (of_Z w', of_Z h')
    /\ divStride (of_Z s) (of_Z w') (of_Z h') = (of_Z w', of_Z h')
    /\ ((s | width) -> w' = width)
    /\ ((s | height) -> h' = height).
Proof.
  intros Hs. exists (roundStrideZ s width), (roundStrideZ s height).
  unfold divStride. rewrite !roundStride_of_Z by exact Hs.
  destruct (roundStrideZ_spec s width Hs) as (Hw & _).
  destruct (roundStrideZ_spec s height Hs) as (Hh & _).
  split; [reflexivity|]. split.
  - now rewrite (roundStrideZ_multiple s (roundStrideZ s width) Hs Hw),
      (roundStrideZ_multiple s (roundStrideZ s height) Hs Hh).
  - split; intros Hd; now apply roundStrideZ_multiple.
Qed.

(** [divStride(32, 650, 960)]. *)
Lemma divStride_idempotent_witness :
  (0 < 32)
  /\ exists w' h',
       divStride (of_Z 32) (of_Z 650) (of_Z 960) = (of_Z w', of_Z h')
       /\ divStride (of_Z 32) (of_Z w') (of_Z h') = (of_Z w', of_Z h')
       /\ ((32 | 650) -> w' = 650)
       /\ ((32 | 960) -> h' = 960).
Proof. split; [lia | apply (divStride_idempotent 32 650 960); lia]. Defined.

(** X5. On the sizes an image can have ([0 <= width], [0 <= height]) the
    result of [divStride] is the nearest multiple of the stride: it is a
    multiple of the stride, at most half a stride away from the size
    given, and strictly less than half a stride below it, a size half-way
    between two multiples going up. *)
Theorem divStride_within_half_stride (s width height : Z) :
  0 < s -> 0 <= width -> 0 <= height ->
  exists w' h',
    divStride (of_Z s) (of_Z width) (of_Z height) = (of_Z w', of_Z h')
    /\ (s | w') /\ (s | h')
    /\ 2 * Z.abs (w' - width) <= s /\ 2 * (width - w') < s
    /\ 2 * Z.abs (h' - height) <= s /\ 2 * (height - h') < s
    /\ 0 <= w' /\ 0 <= h'.
Proof.
  intros Hs Hw Hh. exists (roundStrideZ s width), (roundStrideZ s height).
  unfold divStride. rewrite !roundStride_of_Z by exact Hs.
  split; [reflexivity|].
  split; [apply (roundStrideZ_spec s width Hs)|].
  split; [apply (roundStrideZ_spec s height Hs)|].
  assert (Hone : forall d, 0 <= d ->
            2 * Z.abs (roundStrideZ s d - d) <= s /\ 2 * (d - roundStrideZ s d) < s
            /\ 0 <= roundStrideZ s d).
  { intros d Hd. unfold roundStrideZ. rewrite Z.rem_mod_nonneg by lia.
    pose proof (Z.div_mod d s ltac:(lia)) as Hdm.
    pose proof (Z.mod_pos_bound d s Hs) as Hm.
    pose proof (Z.div_pos d s Hd Hs) as Hq.
    destruct (d mod s =? 0) eqn:H0; [lia|].
    destruct (s <=? 2 * (d mod s)) eqn:H1.
    - apply Z.leb_le in H1. nia.
    - apply Z.leb_gt in H1. nia. }
  destruct (Hone width Hw) as (? & ? & ?). destruct (Hone height Hh) as (? & ? & ?).
  tauto.
Qed.

(** [divStride(32, 656, 10)]: 656 is half-way between 640 and 672. *)
Lemma divStride_within_half_stride_witness :
  (0 < 32) /\ (0 <= 656) /\ (0 <= 10)
  /\ exists w' h',
       divStride (of_Z 32) (of_Z 656) (of_Z 10) = (of_Z w', of_Z h')
       /\ (32 | w') /\ (32 | h')
       /\ 2 * Z.abs (w' - 656) <= 32 /\ 2 * (656 - w') < 32
       /\ 2 * Z.abs (h' - 10) <= 32 /\ 2 * (10 - h') < 32
       /\ 0 <= w' /\ 0 <= h'.
Proof.
  split; [lia|]. split; [lia|]. split; [lia|].
  apply (divStride_within_half_stride 32 656 10); lia.
Defined.

(** X6. [divStride] is monotone: of two sizes the larger never gets the
    smaller rounded size (integers, [s > 0]), on the width and on the
    height alike. *)
Theorem divStride_monotone (s w1 h1 w2 h2 : Z) :
  0 < s -> w1 <= w2 -> h1 <= h2 ->
  exists w1' h1' w2' h2',
    divStride (of_Z s) (of_Z w1) (of_Z h1) = (of_Z w1', of_Z h1')
    /\ divStride (of_Z s) (of_Z w2) (of_Z h2) = (of_Z w2', of_Z h2')
    /\ w1' <= w2' /\ h1' <= h2'.
Proof.
  intros Hs Hw Hh.
  exists (roundStrideZ s w1), (roundStrideZ s h1), (roundStrideZ s w2), (roundStrideZ s h2).
  unfold divStride. rewrite !roundStride_of_Z by exact Hs.
  split; [reflexivity|]. split; [reflexivity|].
  split; now apply roundStrideZ_mono.
Qed.

(** [divStride(32, 15, 640)] and [divStride(32, 16, 656)]. *)
Lemma divStride_monotone_witness :
  (0 < 32) /\ (15 <= 16) /\ (640 <= 656)
  /\ exists w1' h1' w2' h2',
       divStride (of_Z 32) (of_Z 15) (of_Z 640) = (of_Z w1', of_Z h1')
       /\ divStride (of_Z 32) (of_Z 16) (of_Z 656) = (of_Z w2', of_Z h2')
       /\ w1' <= w2' /\ h1' <= h2'.
Proof.
  split; [lia|]. split; [lia|]. split; [lia|].
  apply (divStride_monotone 32 15 640 16 656); lia.
Defined.

End Rounding.

(** ** Further properties of the preprocessing *)

Section Scaling.

Lemma roundStrideZ_at_least_stride (s d : Z) :
  (0 < s -> s <= 2 * d -> s <= roundStrideZ s d)%Z.
Proof.
  intros Hs Hd. rewrite roundStrideZ_nonneg by lia.
  assert (1 <= (2 * d + s) / (2 * s))%Z.
  { apply Z.div_le_lower_bound; lia. }
  nia.
Qed.

Lemma div_of_Z_pos (a b : Z) :
  (0 < b)%Z -> div (of_Z a) (of_Z b) = Fin (inject_Z a / inject_Z b).
Proof.
  intros Hb. destruct b as [|p|p]; try lia.
  unfold div, of_Z. now rewrite Qeq_bool_pos.
Qed.

Lemma fdiv_of_Z_pos (a b : Z) :
  (0 < b)%Z -> fdiv (of_Z a) (of_Z b) = Fin (Qround 53 (inject_Z a / inject_Z b)).
Proof. intros Hb. unfold fdiv, fl64. now rewrite div_of_Z_pos. Qed.

Lemma ratio_at_least_one (a b : Z) :
  (0 < b)%Z -> (b <= a)%Z -> (1 <= inject_Z a / inject_Z b)%Q.
Proof.
  intros Hb Hab. apply Qle_shift_div_l.
  - change 0%Q with (inject_Z 0). now rewrite <- Zlt_Qlt.
  - rewrite Qmult_1_l. now rewrite <- Zle_Qle.
Qed.

Lemma ratio_one (b : Z) : (0 < b)%Z -> (inject_Z b / inject_Z b == 1)%Q.
Proof.
  intros Hb. apply Qmult_inv_r. intros H0.
  unfold Qeq in H0. cbn in H0. lia.
Qed.

(** X7. When neither side of the image is below half the stride,
    [preprocessing] returns, both ratios are finite and at least 1, each is
    the binary64 quotient of the longer side of the resized image by the
    side of its axis, the ratio of the longer side is exactly 1, and the
    square the image is padded to has that longer side for its side. *)
Theorem preprocessing_ratios
    (E : Extern) (source : Image E) (modelWidth modelHeight : number) (s : Z) :
  let c := Z.of_nat (imread_cols E source) in
  let r := Z.of_nat (imread_rows E source) in
  (0 < s)%Z -> (s <= 2 * c)%Z -> (s <= 2 * r)%Z ->
  exists (input : list number) (w' h' : Z) (qx qy : Q),
    divStride (of_Z s) (of_Z c) (of_Z r) = (of_Z w', of_Z h')
    /\ preprocessing E source modelWidth modelHeight (of_Z s)
       = Ok (input, Fin qx, Fin qy)
    /\ paddedSide E source (of_Z s) = of_Z (Z.max w' h')
    /\ (1 <= qx)%Q /\ (1 <= qy)%Q
    /\ ((h' <= w')%Z -> (qx == 1)%Q) /\ ((w' <= h')%Z -> (qy == 1)%Q)
    /\ qx = Qround 53 (inject_Z (Z.max w' h') / inject_Z w')
    /\ qy = Qround 53 (inject_Z (Z.max w' h') / inject_Z h').
Proof.
  intros c r Hs Hc Hr.
  pose proof (roundStrideZ_at_least_stride s c Hs Hc) as Hw.
  pose proof (roundStrideZ_at_least_stride s r Hs Hr) as Hh.
  pose proof (divStride_of_Z s c r Hs) as Hd.
  set (w' := roundStrideZ s c) in *. set (h' := roundStrideZ s r) in *.
  eexists _, w', h', _, _. split; [exact Hd|].
  rewrite (preprocessing_steps E source modelWidth modelHeight (of_Z s) _ _ Hd).
  unfold paddedSide, of_nat. fold c r. rewrite Hd.
  rewrite resizable_of_Z.
  replace (0 <? w')%Z with true by (symmetry; apply Z.ltb_lt; lia).
  replace (0 <? h')%Z with true by (symmetry; apply Z.ltb_lt; lia).
  cbn [andb].
  rewrite Math_max2_of_Z, !fdiv_of_Z_pos by lia.
  rewrite (Z.max_comm h' w').
  split; [reflexivity|]. split; [reflexivity|].
  split; [apply Qround_ge_1; [lia | apply ratio_at_least_one; lia]|].
  split; [apply Qround_ge_1; [lia | apply ratio_at_least_one; lia]|].
  split; [|split; [|split; reflexivity]].
  - intros Hle. rewrite Z.max_l by lia. rewrite Qround_1; [reflexivity|].
    apply ratio_one. lia.
  - intros Hle. rewrite Z.max_r by lia. rewrite Qround_1; [reflexivity|].
    apply ratio_one. lia.
Qed.

(** An image of 1280 x 950 pixels. *)
Lemma preprocessing_ratios_witness :
  (0 < 32)%Z /\ (32 <= 2 * 1280)%Z /\ (32 <= 2 * 950)%Z
  /\ exists (input : list number) (qx qy : Q),
       preprocessing demoExtern (1280, 950)%nat (of_Z 640) (of_Z 640) (of_Z 32)
         = Ok (input, Fin qx, Fin qy)
       /\ (1 <= qx)%Q /\ (1 <= qy)%Q.
Proof.
  split; [lia|]. split; [lia|]. split; [lia|].
  assert (H1 : (0 < 32)%Z) by lia.
  assert (H2 : (32 <= 2 * Z.of_nat (imread_cols demoExtern (1280, 950)%nat))%Z)
    by (cbn; lia).
  assert (H3 : (32 <= 2 * Z.of_nat (imread_rows demoExtern (1280, 950)%nat))%Z)
    by (cbn; lia).
  destruct (preprocessing_ratios demoExtern (1280, 950)%nat (of_Z 640) (of_Z 640) 32
              H1 H2 H3)
    as (input & w' & h' & qx & qy & _ & Hp & _ & Hx & Hy & _).
  exists input, qx, qy. auto.
Defined.

End Scaling.

(** ** Further properties of the decoder *)

Section Records.

Lemma clampStart_of_Z (a : Z) : clampStart (of_Z a) = of_Z (Z.max a 0).
Proof.
  unfold clampStart, ge, le, of_Z, Qle_bool, inject_Z. cbn [Qnum Qden].
  rewrite !Z.mul_1_r. destruct (Z.leb_spec 0 a).
  - now rewrite Z.max_l by lia.
  - now rewrite Z.max_r by lia.
Qed.

Lemma cutExtent_of_Z (x c m : Z) :
  cutExtent (of_Z x) (of_Z c) (of_Z m)
  = of_Z (if (x + c <=? m)%Z then c else (m - x)%Z).
Proof.
  unfold cutExtent, sub. cbn [add neg of_Z].
  change (Fin (inject_Z m + - inject_Z x)) with (Fin (inject_Z m - inject_Z x)).
  rewrite Qminus_Z, Qplus_Z. unfold le, of_Z at 1, Qle_bool, inject_Z.
  cbn [Qnum Qden]. rewrite !Z.mul_1_r. now destruct (x + c <=? m)%Z.
Qed.

Lemma overflowBoxes_finite (x y w h m : Q) :
  exists x' y' w' h', overflowBoxes (finBox x y w h) (Fin m) = finBox x' y' w' h'.
Proof.
  rewrite overflowBoxes_axes. cbn [finBox b0 b1 b2 b3].
  destruct (clampStart_fin x) as (x' & -> & _).
  destruct (clampStart_fin y) as (y' & -> & _).
  destruct (cutExtent_fin x' w m) as (w' & -> & _).
  destruct (cutExtent_fin y' h m) as (h' & -> & _).
  now exists x', y', w', h'.
Qed.

(** X8. The bounding box of a record is a box of whole pixels inside the
    bound: for a row whose four box entries are finite, finite ratios and
    an integer bound [M] (in [detectImage] the larger model dimension), the
    four coordinates are integers with [0 <= x], [0 <= y], [x + w <= M]
    and [y + h <= M]. *)
Theorem bounding_is_integral
    (E : Extern) (cx cy w h xRatio yRatio : Q) (rest : list number) (M : Z) :
  exists x' y' w' h' : Z,
    bounding (decode E (Fin cx :: Fin cy :: Fin w :: Fin h :: rest)
                     (Fin xRatio) (Fin yRatio) (of_Z M))
      = intBox x' y' w' h'
    /\ (0 <= x')%Z /\ (0 <= y')%Z /\ (x' + w' <= M)%Z /\ (y' + h' <= M)%Z.
Proof.
  unfold decode. cbn [bounding]. unfold upscaledBox, modelBox.
  change (slice (Fin cx :: Fin cy :: Fin w :: Fin h :: rest) 0 4)
    with [Fin cx; Fin cy; Fin w; Fin h].
  cbn [elem lookup list_lookup default from_option id].
  change (mkBox (sub (Fin cx) (mul (Fin (1 # 2)) (Fin w)))
                (sub (Fin cy) (mul (Fin (1 # 2)) (Fin h))) (Fin w) (Fin h))
    with (finBox (cx - (1 # 2) * w) (cy - (1 # 2) * h) w h).
  change (of_Z M) with (Fin (inject_Z M)).
  destruct (overflowBoxes_finite (cx - (1 # 2) * w) (cy - (1 # 2) * h) w h (inject_Z M))
    as (x1 & y1 & w1 & h1 & ->).
  cbn [finBox b0 b1 b2 b3]. unfold fmul, fl64. cbn [mul fl Math_floor].
  rewrite overflowBoxes_axes. cbn [b0 b1 b2 b3].
  fold (of_Z M). rewrite !clampStart_of_Z, !cutExtent_of_Z.
  eexists _, _, _, _. split; [reflexivity|].
  repeat split; try lia.
  - destruct (Z.leb_spec (Z.max (Qfloor (Qround 53 (x1 * xRatio))) 0
                          + Qfloor (Qround 53 (w1 * xRatio))) M); lia.
  - destruct (Z.leb_spec (Z.max (Qfloor (Qround 53 (y1 * yRatio))) 0
                          + Qfloor (Qround 53 (h1 * yRatio))) M); lia.
Qed.

(** X9. The mask coefficients of a row reach the mask generator in their
    places: for a row made of four box entries, [numClass] scores and the
    coefficients, the tensor handed over as [detection] holds, as a
    [Float32Array] stores them, the box as clipped the first time (not the
    upscaled one) followed by the coefficients, none of the scores, and its
    one dimension is the number of coefficients plus four.  Coefficients
    that are binary32 numbers, as the entries of the selected tensor are,
    arrive unchanged. *)
Theorem mask_coefficients_pass_through
    (E : Extern) (cx cy w h : number) (scores coeffs : list number) (maxSize : number) :
  length scores = numClass E ->
  let t := maskInput E (cx :: cy :: w :: h :: scores ++ coeffs) maxSize in
  tdata t
    = map fround
        (box_list (overflowBoxes
                     (mkBox (sub cx (mul (Fin (1 # 2)) w)) (sub cy (mul (Fin (1 # 2)) h))
                            w h)
                     maxSize))
      ++ map fround coeffs
  /\ dims t = [(4 + length coeffs)%nat]
  /\ (Forall (fun c => fround c = c) coeffs -> drop 4 (tdata t) = coeffs).
Proof.
  intros Hlen t. subst t.
  assert (Hdata : tdata (maskInput E (cx :: cy :: w :: h :: scores ++ coeffs) maxSize)
                  = map fround
                      (box_list (overflowBoxes
                                   (mkBox (sub cx (mul (Fin (1 # 2)) w))
                                          (sub cy (mul (Fin (1 # 2)) h)) w h)
                                   maxSize))
                    ++ map fround coeffs).
  { unfold maskInput, new_Tensor1, Float32Array, slice_from, modelBox.
    cbn [tdata]. rewrite <- Hlen.
    change (drop (4 + length scores) (cx :: cy :: w :: h :: scores ++ coeffs))
      with (drop (length scores) (scores ++ coeffs)).
    rewrite drop_app_length.
    change (slice (cx :: cy :: w :: h :: scores ++ coeffs) 0 4) with [cx; cy; w; h].
    cbn [elem lookup list_lookup default from_option id].
    apply map_app. }
  split; [exact Hdata|]. split.
  - change (dims (maskInput E (cx :: cy :: w :: h :: scores ++ coeffs) maxSize))
      with [length (tdata (maskInput E (cx :: cy :: w :: h :: scores ++ coeffs)
                             maxSize))].
    rewrite Hdata, length_app, !length_map. reflexivity.
  - intros Hall. rewrite Hdata.
    assert (Hid : map fround coeffs = coeffs).
    { clear Hdata. induction Hall as [|c l Hc _ IH]; [reflexivity|].
      cbn [map]. rewrite Hc. f_equal. exact IH. }
    rewrite Hid. reflexivity.
Qed.

(** The row of [demoSelected], whose coefficients are 7 and 8. *)
Lemma mask_coefficients_pass_through_witness :
  length [Fin (9 # 10); Fin (1 # 10)] = numClass demoExtern
  /\ tdata (maskInput demoExtern (tdata demoSelected) (of_Z 640))
     = [Fin 75; Fin 75; Fin 50; Fin 50; Fin 7; Fin 8].
Proof.
  split; [reflexivity|].
  exact (proj1 (mask_coefficients_pass_through demoExtern (Fin 100) (Fin 100) (Fin 50)
                  (Fin 50) [Fin (9 # 10); Fin (1 # 10)] [Fin 7; Fin 8] (of_Z 640)
                  eq_refl)).
Defined.

Lemma fold_max_NaN (l : list number) : fold_left Math_max2 l NaN = NaN.
Proof. induction l as [|x l IH]; [reflexivity | exact IH]. Qed.

Lemma Math_max2_NaN_r (a : number) : Math_max2 a NaN = NaN.
Proof. now destruct a. Qed.

Lemma fold_max_In_NaN (l : list number) (a : number) :
  In NaN l -> fold_left Math_max2 l a = NaN.
Proof.
  revert a. induction l as [|x l IH]; intros a Hin; [destruct Hin|].
  cbn [fold_left]. destruct Hin as [->|Hin].
  - rewrite Math_max2_NaN_r. apply fold_max_NaN.
  - now apply IH.
Qed.

Lemma strict_eq_NaN_r (a : number) : strict_eq a NaN = false.
Proof. now destruct a. Qed.

Lemma indexOf_from_NaN (l : list number) (k : Z) : indexOf_from l NaN k = (-1)%Z.
Proof.
  revert k. induction l as [|x l IH]; intros k; [reflexivity|].
  cbn [indexOf_from]. now rewrite strict_eq_NaN_r.
Qed.

(** X10. A record has no label when its row gives no usable score: if the
    score slice of the row is empty (a row of at most four entries, or no
    class at all) the probability is -Infinity, if it holds a NaN the
    probability is NaN, and in both cases [indexOf] answers -1, the label
    is [undefined] and the colour is the one of index -1. *)
Theorem no_score_no_label
    (E : Extern) (data : list number) (xRatio yRatio maxSize : number) :
  let scores := slice data 4 (4 + numClass E) in
  let d := decode E data xRatio yRatio maxSize in
  (scores = [] ->
     probability d = NegInfinity /\ label d = None /\ color d = colors_get E (-1))
  /\ (In NaN scores ->
     probability d = NaN /\ label d = None /\ color d = colors_get E (-1))
  /\ ((length data <= 4)%nat -> scores = []).
Proof.
  intros scores d. subst d. unfold decode. cbn [probability label color].
  fold scores. split; [|split].
  - intros ->. repeat split.
  - intros Hin. unfold Math_max. rewrite (fold_max_In_NaN scores _ Hin).
    unfold indexOf. rewrite indexOf_from_NaN. repeat split.
  - intros Hlen. subst scores. unfold slice. rewrite drop_ge by exact Hlen.
    apply take_nil.
Qed.

(** X11. The rows tile the data of the selected tensor: row [idx] starts at
    [idx * dims[2]], entry [j] of it is entry [idx * dims[2] + j] of the
    data, it has [dims[2]] entries as long as the data reaches that far and
    none past the end of the data, and the first [N] rows put end to end
    are the first [N * dims[2]] entries. *)
Theorem rows_tile_the_data (selected : Tensor) :
  let d2 := default 0%nat (dims selected !! 2%nat) in
  (forall idx j : nat,
     (j < d2)%nat -> row selected idx !! j = tdata selected !! (idx * d2 + j)%nat)
  /\ (forall idx : nat,
        ((idx + 1) * d2 <= length (tdata selected))%nat ->
        length (row selected idx) = d2)
  /\ (forall idx : nat,
        (length (tdata selected) <= idx * d2)%nat -> row selected idx = [])
  /\ (forall N : nat,
        concat (map (row selected) (seq 0 N)) = take (N * d2) (tdata selected)).
Proof.
  intros d2.
  assert (Hrow : forall idx, row selected idx = take d2 (drop (idx * d2) (tdata selected))).
  { intros idx. unfold row, slice. fold d2. f_equal. lia. }
  split; [|split; [|split]].
  - intros idx j Hj. rewrite Hrow, lookup_take_lt by exact Hj. apply lookup_drop.
  - intros idx Hlen. rewrite Hrow, length_take, length_drop. lia.
  - intros idx Hlen. rewrite Hrow, drop_ge by exact Hlen. apply take_nil.
  - intros N. induction N as [|N IH]; [reflexivity|].
    rewrite seq_S, map_app, concat_app, IH. cbn [map concat Nat.add].
    rewrite app_nil_r, Hrow, take_take_drop. f_equal. lia.
Qed.

End Records.

(** ** Further properties of the pass *)

Section Calls.

Variables (E : Extern) (session : Session).
Variables (image : Image E) (topk iouThreshold scoreThreshold : number).

Variables (batch channels modelWidth modelHeight : nat) (more : list nat).

Local Abbreviation inputShape := (batch :: channels :: modelWidth :: modelHeight :: more).
Local Abbreviation bound := (Math_max2 (of_nat modelWidth) (of_nat modelHeight)).
Local Abbreviation pre :=
  (preprocessing E image (of_nat modelWidth) (of_nat modelHeight) default_stride).
Local Abbreviation config :=
  (new_Tensor1 float32
     (Float32Array [of_nat (numClass E); topk; iouThreshold; scoreThreshold])).
Local Abbreviation pass :=
  (detectImage E session image topk iouThreshold scoreThreshold inputShape).

(** X12. The pass stops at the first step that fails (shapes of at least
    four entries).  When it returns, every call it issued was answered and
    there are two calls more than records (the detector, the selector, one
    mask call per row).  When it throws before any call was issued, it is
    the resize that was refused or, the preprocessing having returned, the
    blob that the tensor constructor refused; otherwise the last call
    issued is the one that failed, every call before it was answered, none
    was issued after it, and the failure names the stage of that call. *)
Theorem pass_stops_at_first_failure :
  match snd pass with
  | Ok (boxes, _) =>
      Forall (call_answered session) (fst pass)
      /\ length (fst pass) = (2 + length boxes)%nat
  | Throw e =>
      match e with
      | ShapeFailure => False
      | ResizeFailure => fst pass = [] /\ pre = Throw ResizeFailure
      | TensorFailure =>
          fst pass = []
          /\ exists input xRatio yRatio,
               pre = Ok (input, xRatio, yRatio)
               /\ new_Tensor float32 input inputShape = None
      | NetFailure | NmsFailure | MaskFailure =>
          exists calls c,
            fst pass = calls ++ [c]
            /\ Forall (call_answered session) calls
            /\ call_failed session c
            /\ match c, e with
               | CallNet _, NetFailure
               | CallNms _ _, NmsFailure
               | CallMask _ _ _ _, MaskFailure => True
               | _, _ => False
               end
      end
  end.
Proof.
  rewrite detectImage_steps.
  destruct pre as [[[input xRatio] yRatio]|e] eqn:Hpre.
  2:{ unfold preprocessing in Hpre.
      destruct (divStride _ _ _) as [w h]. destruct (resizable w h); [discriminate Hpre|].
      inversion Hpre; subst e. cbn. split; reflexivity. }
  destruct (new_Tensor float32 input inputShape) as [tensor|] eqn:Htensor.
  2:{ cbn. split; [reflexivity|]. now exists input, xRatio, yRatio. }
  destruct (net_run session tensor) as [[output0 output1]|] eqn:Hnet.
  - destruct (nms_run session output0 config) as [selected|] eqn:Hnms.
    + destruct (pass_fate E session image topk iouThreshold scoreThreshold
                  batch channels modelWidth modelHeight more
                  input xRatio yRatio tensor output0 output1 selected
                  Hpre Htensor Hnet Hnms)
        as [(calls & final & Hrun & Hall & Hlen) | (calls & c & Hrun & Hall & Hfail & Hc)];
        rewrite detectImage_steps, Hpre, Htensor, Hnet, Hnms in Hrun;
        cbn zeta in *; rewrite Hrun; cbn [fst snd].
      * split.
        -- constructor; [exists (output0, output1); exact Hnet|].
           constructor; [exists selected; exact Hnms | exact Hall].
        -- cbn [length]. rewrite Hlen, length_map, length_seq. reflexivity.
      * destruct Hc as (a & b & cfg & ov & ->).
        exists (CallNet tensor :: CallNms output0 config :: calls),
               (CallMask a b cfg ov).
        split; [reflexivity|]. split; [|split; [exact Hfail | exact I]].
        constructor; [exists (output0, output1); exact Hnet|].
        constructor; [exists selected; exact Hnms | exact Hall].
    + cbn [fst snd]. exists [CallNet tensor], (CallNms output0 config).
      split; [reflexivity|]. split; [|split; [exact Hnms | exact I]].
      constructor; [exists (output0, output1); exact Hnet | constructor].
  - cbn [fst snd]. exists [], (CallNet tensor).
    split; [reflexivity|]. split; [constructor|]. split; [exact Hnet | exact I].
Qed.

(** X13. A selected tensor without rows ([dims[1]] is 0, or the tensor has
    fewer than two dimensions) gives the empty list of records and the
    overlay untouched: [modelHeight * modelWidth * 4] zeros of dimensions
    [[modelHeight, modelWidth, 4]]; the mask generator is not called. *)
Theorem no_rows_empty_result
    (input : list number) (xRatio yRatio : number)
    (tensor output0 output1 selected : Tensor) :
  pre = Ok (input, xRatio, yRatio) ->
  new_Tensor float32 input inputShape = Some tensor ->
  net_run session tensor = Some (output0, output1) ->
  nms_run session output0 config = Some selected ->
  dims selected !! 1%nat = Some 0%nat \/ (length (dims selected) <= 1)%nat ->
  pass = ([CallNet tensor; CallNms output0 config],
          Ok ([], emptyOverlay modelWidth modelHeight))
  /\ length (tdata (emptyOverlay modelWidth modelHeight))
     = (modelHeight * modelWidth * 4)%nat
  /\ Forall (fun v => v = of_Z 0) (tdata (emptyOverlay modelWidth modelHeight))
  /\ dims (emptyOverlay modelWidth modelHeight) = [modelHeight; modelWidth; 4%nat].
Proof.
  intros Hpre Htensor Hnet Hnms Hdims.
  assert (Hcount : selectedCount selected = 0%nat).
  { unfold selectedCount. destruct Hdims as [-> | Hlen]; [reflexivity|].
    now rewrite lookup_ge_None_2 by exact Hlen. }
  rewrite detectImage_steps, Hpre, Htensor, Hnet, Hnms.
  cbn zeta. rewrite Hcount. cbn [loop ret fst snd].
  split; [reflexivity|]. unfold emptyOverlay, Uint8Array. cbn [tdata dims].
  split; [apply length_replicate|]. split; [|reflexivity].
  now apply Forall_replicate.
Qed.

(** X14. Each mask call matches the record of its row: when the pass
    returns, the call of index [2 + i] is the mask call of record [i]; its
    mask basis is the second output of the detector, its configuration
    starts with the bound followed by the bounding box of that record, as a
    [Float32Array] holds them, and the first mask call works on the empty
    overlay. *)
Theorem mask_calls_match_records
    (calls : list call) (boxes : list (Detection E)) (ov : Tensor) :
  pass = (calls, Ok (boxes, ov)) ->
  exists input xRatio yRatio tensor output0 output1,
    pre = Ok (input, xRatio, yRatio)
    /\ new_Tensor float32 input inputShape = Some tensor
    /\ net_run session tensor = Some (output0, output1)
    /\ forall (i : nat) (d : Detection E),
         boxes !! i = Some d ->
         exists detection overlay,
           calls !! (2 + i)%nat
             = Some (CallMask detection output1 (maskConfig E d bound) overlay)
           /\ take 5 (tdata (maskConfig E d bound))
              = map fround [bound; b0 (bounding d); b1 (bounding d);
                            b2 (bounding d); b3 (bounding d)]
           /\ (i = 0%nat -> overlay = emptyOverlay modelWidth modelHeight).
Proof.
  intros Hrun. pose proof Hrun as Hsteps. rewrite detectImage_steps in Hsteps.
  destruct pre as [[[input xRatio] yRatio]|e] eqn:Hpre; [|discriminate Hsteps].
  destruct (new_Tensor float32 input inputShape) as [tensor|] eqn:Htensor;
    [|discriminate Hsteps].
  destruct (net_run session tensor) as [[output0 output1]|] eqn:Hnet;
    [|discriminate Hsteps].
  destruct (nms_run session output0 config) as [selected|] eqn:Hnms;
    [|discriminate Hsteps].
  clear Hsteps.
  exists input, xRatio, yRatio, tensor, output0, output1.
  do 3 (split; [reflexivity || assumption|]).
  intros i d Hd.
  destruct (pass_run E session image topk iouThreshold scoreThreshold
              batch channels modelWidth modelHeight more
              input xRatio yRatio tensor output0 output1 selected
              Hpre Htensor Hnet Hnms) as (answers & _ & Hcase).
  cbn zeta in Hcase.
  destruct Hcase as [(Hlen & final & _ & Hrun') | (_ & _ & Hrun')];
    rewrite Hrun in Hrun'; [|discriminate Hrun'].
  inversion Hrun'; subst calls boxes ov. clear Hrun'.
  rewrite list_lookup_fmap in Hd.
  destruct (seq 0 (selectedCount selected) !! i) as [k|] eqn:Hk; [|discriminate Hd].
  apply lookup_seq in Hk. destruct Hk as [-> Hi]. cbn in Hd. inversion Hd; subst d.
  destruct (lookup_lt_is_Some_2 (emptyOverlay modelWidth modelHeight :: answers) i)
    as [o Ho]; [cbn [length]; lia|].
  exists (maskInput E (row selected i) bound), o. split; [|split].
  - change (2 + i)%nat with (S (S i)). cbn [lookup list_lookup].
    change (imap (maskCall E selected output1 xRatio yRatio bound)
              (take (selectedCount selected)
                 (emptyOverlay modelWidth modelHeight :: answers)) !! i
            = Some (maskCall E selected output1 xRatio yRatio bound i o)).
    rewrite list_lookup_imap, lookup_take_lt by exact Hi. now rewrite Ho.
  - reflexivity.
  - intros ->. cbn in Ho. now inversion Ho.
Qed.

End Calls.

(** ** The further properties on the small instance *)

(** A pass whose selector keeps nothing. *)
Lemma no_rows_empty_result_witness :
  exists calls,
    detectImage demoExtern (demoSession noneSelected) (640, 640)%nat
      appTopk appIouThreshold appScoreThreshold modelInputShape
    = (calls, Ok ([], emptyOverlay 640 640))
    /\ length calls = 2%nat.
Proof.
  destruct (no_rows_empty_result demoExtern (demoSession noneSelected) (640, 640)%nat
              appTopk appIouThreshold appScoreThreshold 1%nat 3%nat 640%nat 640%nat []
              _ _ _ demoTensor demoTensor demoTensor noneSelected
              demo_preprocessing_square demo_tensor_accepted eq_refl eq_refl
              (or_introl eq_refl))
    as (Hrun & _).
  eexists. split; [exact Hrun | reflexivity].
Defined.

(** The pass on [demoSelected]: its third call is the mask call of its one
    record. *)
Lemma mask_calls_match_records_witness :
  exists calls boxes ov,
    detectImage demoExtern (demoSession demoSelected) (640, 640)%nat
      appTopk appIouThreshold appScoreThreshold modelInputShape
    = (calls, Ok (boxes, ov))
    /\ exists d detection basis,
         boxes !! 0%nat = Some d
         /\ calls !! 2%nat
            = Some (CallMask detection basis
                      (maskConfig demoExtern d
                         (Math_max2 (of_nat 640) (of_nat 640)))
                      (emptyOverlay 640 640)).
Proof.
  eexists _, _, (emptyOverlay 640 640).
  match goal with
  | |- ?run /\ _ => assert (Hrun : run) by run_demo demo_pass demo_preprocessing_square
  end.
  split; [exact Hrun|].
  destruct (mask_calls_match_records demoExtern (demoSession demoSelected)
              (640, 640)%nat appTopk appIouThreshold appScoreThreshold
              1%nat 3%nat 640%nat 640%nat [] _ _ _ Hrun)
    as (input & xRatio & yRatio & tensor & output0 & output1 & _ & _ & _ & Hcalls).
  destruct (Hcalls 0%nat _ eq_refl) as (detection & overlay & Hc & _ & Hov).
  rewrite (Hov eq_refl) in Hc.
  eexists _, detection, _. split; [reflexivity | exact Hc].
Defined.
